(** * pyth-client-js: decoding of Pyth oracle accounts

    A shallow embedding of [src/index.ts]: the three account decoders
    [parseMappingData], [parseProductData] and [parsePriceData], the
    Price-Info decoder [parsePriceInfo] and the nullable-key helper
    [PKorNull], together with the part of the JavaScript runtime they rest
    on (byte buffers, [slice], the little-endian integer readers, numbers
    that may be [NaN], IEEE 754 doubles). *)

From Stdlib Require Import Floats.PrimFloat.
From Stdlib Require Floats.FloatOps Floats.SpecFloat.
From Stdlib Require Import ZArith List Bool Lia.
From Stdlib Require Import Strings.Byte.
From stdpp Require Import base list strings gmap.

#[local] Open Scope Z_scope.
#[local] Set Warnings "-inexact-float".

(** ** The runtime: buffers *)

(** A [Buffer] is a sequence of bytes. *)
Abbreviation Buffer := (list byte).

Definition byte_val (b : byte) : Z := Z.of_N (Byte.to_N b).

Definition len (data : Buffer) : Z := Z.of_nat (length data).

(** [data.slice(start, end)] for the non-negative offsets this program
    uses: both ends are clamped to the buffer, and an end before the start
    gives the empty buffer. The call never fails. *)
Definition slice (data : Buffer) (start end_ : Z) : Buffer :=
  take (Z.to_nat (end_ - start)) (drop (Z.to_nat start) data).

(** [data[i]]: [None] stands for [undefined], the value of an index
    outside the buffer. *)
Definition byte_at (data : Buffer) (i : Z) : option byte :=
  if i <? 0 then None else data !! Z.to_nat i.

(** [a.equals(b)]: same length and same bytes. *)
Fixpoint equals (a b : Buffer) : bool :=
  match a, b with
  | [], [] => true
  | x :: a', y :: b' => Byte.eqb x y && equals a' b'
  | _, _ => false
  end.

(** [Buffer.alloc(n)]: [n] zero bytes. *)
Definition alloc (n : nat) : Buffer := replicate n x00.

(** The value of a byte sequence read in little-endian order. *)
Fixpoint le_value (bs : Buffer) : Z :=
  match bs with
  | [] => 0
  | b :: rest => byte_val b + 256 * le_value rest
  end.

(** ** The runtime: outcomes of a call *)

(** The one exception of the program: an integer reader refusing a read
    that does not fit the buffer (a [RangeError] of the buffer library). *)
Inductive exn : Type := OutOfRange.

(** [OutOfFuel] is a loop of the model running out of fuel; the decoders
    are proved never to produce it. *)
Inductive result (A : Type) : Type :=
  | Ok (a : A)
  | Throw (e : exn)
  | OutOfFuel.
Arguments Ok {A} a.
Arguments Throw {A} e.
Arguments OutOfFuel {A}.

Definition bind {A B} (k : A -> result B) (m : result A) : result B :=
  match m with
  | Ok a => k a
  | Throw e => Throw e
  | OutOfFuel => OutOfFuel
  end.

(** [x ← m; k] runs [m] and, unless it threw, continues with [k]. *)
#[global] Instance result_bind : MBind result := @bind.

Definition result_map {A B} (f : A -> B) (m : result A) : result B :=
  x ← m; Ok (f x).

(** ** The runtime: integer readers *)

(** Conversion of an unsigned value to the signed integer of the same
    width (two's complement). *)
Definition to_int32 (u : Z) : Z := if u <? 2 ^ 31 then u else u - 2 ^ 32.
Definition to_int64 (u : Z) : Z := if u <? 2 ^ 63 then u else u - 2 ^ 64.

(** The byte at [i] as a number, for indices already checked. *)
Definition u8 (data : Buffer) (i : Z) : Z :=
  match byte_at data i with
  | Some b => byte_val b
  | None => 0
  end.

(** [data.readUInt32LE(offset)] of the buffer library: a range check,
    then the four bytes combined as the library does. *)
Definition readUInt32LE (data : Buffer) (offset : Z) : result Z :=
  if offset + 4 <=? len data then
    Ok (Z.lor (Z.lor (u8 data offset) (Z.shiftl (u8 data (offset + 1)) 8))
              (Z.shiftl (u8 data (offset + 2)) 16)
        + u8 data (offset + 3) * 0x1000000)
  else Throw OutOfRange.

(** [data.readInt32LE(offset)]: the same bytes, as a signed integer. *)
Definition readInt32LE (data : Buffer) (offset : Z) : result Z :=
  if offset + 4 <=? len data then
    Ok (to_int32
          (Z.lor (Z.lor (Z.lor (u8 data offset) (Z.shiftl (u8 data (offset + 1)) 8))
                        (Z.shiftl (u8 data (offset + 2)) 16))
                 (Z.shiftl (u8 data (offset + 3)) 24)))
  else Throw OutOfRange.

(** Modelled from the spec: [readBigUInt64LE] of the module [./readBig],
    which [index.ts] imports and which is not among the sources. It reads
    an unsigned 64-bit integer in little-endian order at a byte offset and
    fails with an out-of-range condition when the read would extend past
    the end of the buffer. *)
Definition readBigUInt64LE (data : Buffer) (offset : Z) : result Z :=
  if offset + 8 <=? len data then Ok (le_value (slice data offset (offset + 8)))
  else Throw OutOfRange.

(** Modelled from the spec: [readBigInt64LE] of the module [./readBig],
    the signed variant of the reader above. *)
Definition readBigInt64LE (data : Buffer) (offset : Z) : result Z :=
  if offset + 8 <=? len data then
    Ok (to_int64 (le_value (slice data offset (offset + 8))))
  else Throw OutOfRange.

(** ** The runtime: numbers *)

(** A JavaScript number used as an index: an integer, or [NaN] after an
    addition with [undefined]. *)
Inductive jsnum : Type :=
  | Num (z : Z)
  | NaN.

(** [Number(b)] for a bigint [b]: the nearest double, ties to even. *)
Definition Number (z : Z) : PrimFloat.float :=
  FloatOps.SF2Prim (SpecFloat.binary_normalize FloatOps.prec FloatOps.emax z 0 false).

(** ** Public keys *)

(** [new PublicKey(bytes)] of the key library, for the inputs this
    program gives it: slices of at most 32 bytes (the library throws on a
    longer input). [mkPublicKey bytes] records the bytes the constructor
    was given; the library keeps them as one big-endian number, so a key
    given fewer than 32 bytes is the 32-byte key with zero bytes in
    front. *)
Inductive PublicKey : Type := mkPublicKey (bytes : Buffer).

(** The bytes a key was built from. *)
Definition key_bytes (k : PublicKey) : Buffer :=
  match k with mkPublicKey bytes => bytes end.

(** ** Constants *)

Definition Magic : Z := 0xa1b2c3d4.
Definition Version1 : Z := 1.
Definition Version : Z := Version1.
Definition PriceStatus : list string := ["Unknown"; "Trading"; "Halted"; "Auction"]%string.
Definition CorpAction : list string := ["NoCorpAct"]%string.
Definition PriceType : list string := ["Unknown"; "Price"; "TWAP"; "Volatility"]%string.

Definition empty32Buffer : Buffer := alloc 32.

Definition PKorNull (data : Buffer) : option PublicKey :=
  if equals data empty32Buffer then None else Some (mkPublicKey data).

(** ** Records *)

(** The header every account starts with. *)
Record Base : Type := mkBase {
  magic : Z;
  version : Z;
  type : Z;
  size : Z
}.

(** [MappingData extends Base]: the header is kept as one field. *)
Record MappingData : Type := mkMappingData {
  mapping_base : Base;
  nextMappingAccount : option PublicKey;
  productAccountKeys : list PublicKey
}.

(** [ProductData extends Base]. [Product] is an object used as a map
    from string keys to strings. *)
Record ProductData : Type := mkProductData {
  product_base : Base;
  priceAccountKey : PublicKey;
  product : gmap string string
}.

Record Price : Type := mkPrice {
  priceComponent : Z;
  price : PrimFloat.float;
  confidenceComponent : Z;
  confidence : PrimFloat.float;
  status : Z;
  corporateAction : Z;
  publishSlot : Z
}.

Record PriceComponent : Type := mkPriceComponent {
  publisher : option PublicKey;
  aggregate : Price;
  latest : Price
}.

(** [PriceData extends Base, Price]: the header and the aggregate price,
    whose fields the source spreads into the record, are kept as two
    fields. *)
Record PriceData : Type := mkPriceData {
  price_base : Base;
  price_info : Price;
  priceType : Z;
  exponent : Z;
  numComponentPrices : Z;
  currentSlot : Z;
  validSlot : Z;
  productAccountKey : PublicKey;
  nextPriceAccountKey : option PublicKey;
  aggregatePriceUpdaterAccountKey : PublicKey;
  priceComponents : list PriceComponent
}.

(** The four header reads every decoder starts with. *)
Definition readBase (data : Buffer) : result Base :=
  magic ← readUInt32LE data 0;
  version ← readUInt32LE data 4;
  type ← readUInt32LE data 8;
  size ← readUInt32LE data 12;
  Ok (mkBase magic version type size).

(** [product[key] = value] on a plain object. The name [__proto__] is not
    stored: the assignment reaches the setter inherited from
    [Object.prototype], which ignores a string. Any other name becomes an
    own property of the object, replacing the value it had. *)
Definition set_property (product : gmap string string) (key value : string)
    : gmap string string :=
  if decide (key = "__proto__"%string) then product else <[key := value]> product.

(** What the metadata loop of [parseProductData] reads, by offset. An
    index outside the buffer is recorded too: it reads [undefined]. *)
Inductive access : Type :=
  | ReadKeyLength (offset : Z)
  | ReadKey (offset : Z)
  | ReadValueLength (offset : Z)
  | ReadValue (offset : Z).

Section Decoders.

(** [base ** e] on doubles. The language leaves the precision of
    exponentiation to the implementation, so it is a parameter. *)
Variable js_pow : PrimFloat.float -> PrimFloat.float -> PrimFloat.float.

(** [buf.toString()]: the bytes decoded as UTF-8 text, by the buffer
    library. *)
Variable toString : Buffer -> string.

(** ** parseMappingData *)

(** The [for] loop over the product accounts. *)
Fixpoint mapping_loop (data : Buffer) (numProducts : Z) (fuel : nat)
    (i offset : Z) (productAccountKeys : list PublicKey) {struct fuel}
    : result (list PublicKey) :=
  if i <? numProducts then
    match fuel with
    | O => OutOfFuel
    | S fuel' =>
        let productAccountBytes := slice data offset (offset + 32) in
        let productAccountKey := mkPublicKey productAccountBytes in
        mapping_loop data numProducts fuel' (i + 1) (offset + 32)
          (productAccountKeys ++ [productAccountKey])
    end
  else Ok productAccountKeys.

Definition parseMappingData (data : Buffer) : result MappingData :=
  base ← readBase data;
  numProducts ← readUInt32LE data 16;
  let nextMappingAccount := PKorNull (slice data 24 56) in
  productAccountKeys ←
    mapping_loop data numProducts (Z.to_nat numProducts) 0 56 [];
  Ok (mkMappingData base nextMappingAccount productAccountKeys).

(** ** parseProductData *)

(** One turn of the [while] loop, entered at [idx]: the next index, the
    metadata after it and the reads it made. A key length that is zero or
    [undefined] is falsy. A value length that is [undefined] makes the
    end of the value slice [NaN], so the value is the empty slice, and
    makes [idx] itself [NaN]. *)
Definition product_step (data : Buffer) (idx : Z) (product : gmap string string)
    : jsnum * gmap string string * list access :=
  let keyLength := byte_at data idx in
  let idx1 := idx + 1 in
  match keyLength with
  | Some kl =>
      if byte_val kl =? 0 then (Num idx1, product, [ReadKeyLength idx])
      else
        let keyBytes := slice data idx1 (idx1 + byte_val kl) in
        let key := toString keyBytes in
        let idx2 := idx1 + byte_val kl in
        let valueLength := byte_at data idx2 in
        let idx3 := idx2 + 1 in
        let reads := ReadKeyLength idx :: (ReadKey <$> seqZ idx1 (len keyBytes))
                     ++ [ReadValueLength idx2] in
        match valueLength with
        | Some vl =>
            let valueBytes := slice data idx3 (idx3 + byte_val vl) in
            let value := toString valueBytes in
            (Num (idx3 + byte_val vl), set_property product key value,
             reads ++ (ReadValue <$> seqZ idx3 (len valueBytes)))
        | None =>
            let value := toString [] in
            (NaN, set_property product key value, reads)
        end
  | None => (Num idx1, product, [ReadKeyLength idx])
  end.

(** [while (idx < bound)]: a comparison with [NaN] is false. *)
Fixpoint product_loop (data : Buffer) (bound : Z) (fuel : nat) (idx : jsnum)
    (product : gmap string string) (reads : list access) {struct fuel}
    : result (jsnum * gmap string string * list access) :=
  match idx with
  | Num i =>
      if i <? bound then
        match fuel with
        | O => OutOfFuel
        | S fuel' =>
            let '(idx', product', r) := product_step data i product in
            product_loop data bound fuel' idx' product' (reads ++ r)
        end
      else Ok (idx, product, reads)
  | NaN => Ok (idx, product, reads)
  end.

(** The metadata loop from offset 48, run up to [bound]. *)
Definition product_metadata (data : Buffer) (bound : Z)
    : result (jsnum * gmap string string * list access) :=
  product_loop data bound (Z.to_nat bound) (Num 48) ∅ [].

Definition parseProductData (data : Buffer) : result ProductData :=
  base ← readBase data;
  let priceAccountBytes := slice data 16 48 in
  let priceAccountKey := mkPublicKey priceAccountBytes in
  st ← product_metadata data (size base);
  Ok (mkProductData base priceAccountKey st.1.2).

(** ** parsePriceInfo *)

Definition parsePriceInfo (data : Buffer) (exponent : Z) : result Price :=
  priceComponent ← readBigInt64LE data 0;
  let price :=
    PrimFloat.mul (Number priceComponent) (js_pow (Number 10) (Number exponent)) in
  confidenceComponent ← readBigUInt64LE data 8;
  let confidence :=
    PrimFloat.mul (Number confidenceComponent) (js_pow (Number 10) (Number exponent)) in
  status ← readUInt32LE data 16;
  corporateAction ← readUInt32LE data 20;
  publishSlot ← readBigUInt64LE data 24;
  Ok (mkPrice priceComponent price confidenceComponent confidence
        status corporateAction publishSlot).

(** ** parsePriceData *)

(** The [while] loop over the price components. *)
Fixpoint components_loop (data : Buffer) (exponent : Z) (fuel : nat) (offset : Z)
    (priceComponents : list PriceComponent) (shouldContinue : bool) {struct fuel}
    : result (list PriceComponent) :=
  if (offset <? len data) && shouldContinue then
    match fuel with
    | O => OutOfFuel
    | S fuel' =>
        let publisher := PKorNull (slice data offset (offset + 32)) in
        let offset := offset + 32 in
        match publisher with
        | Some _ =>
            aggregate ← parsePriceInfo (slice data offset (offset + 32)) exponent;
            let offset := offset + 32 in
            latest ← parsePriceInfo (slice data offset (offset + 32)) exponent;
            let offset := offset + 32 in
            components_loop data exponent fuel' offset
              (priceComponents ++ [mkPriceComponent publisher aggregate latest])
              shouldContinue
        | None => components_loop data exponent fuel' offset priceComponents false
        end
    end
  else Ok priceComponents.

Definition parsePriceData (data : Buffer) : result PriceData :=
  base ← readBase data;
  priceType ← readUInt32LE data 16;
  exponent ← readInt32LE data 20;
  numComponentPrices ← readUInt32LE data 24;
  currentSlot ← readBigUInt64LE data 32;
  validSlot ← readBigUInt64LE data 40;
  let productAccountKey := mkPublicKey (slice data 48 80) in
  let nextPriceAccountKey := PKorNull (slice data 80 112) in
  let aggregatePriceUpdaterAccountKey := mkPublicKey (slice data 112 144) in
  aggregatePriceInfo ← parsePriceInfo (slice data 144 176) exponent;
  priceComponents ← components_loop data exponent (length data) 176 [] true;
  Ok (mkPriceData base aggregatePriceInfo priceType exponent numComponentPrices
        currentSlot validSlot productAccountKey nextPriceAccountKey
        aggregatePriceUpdaterAccountKey priceComponents).

(** ** What the price decoder is measured against *)

(** The component decoded at offset [o]. *)
Definition component_at (data : Buffer) (exponent o : Z) (c : PriceComponent) : Prop :=
  o + 96 ≤ len data
  ∧ slice data o (o + 32) ≠ alloc 32
  ∧ publisher c = Some (mkPublicKey (slice data o (o + 32)))
  ∧ parsePriceInfo (slice data (o + 32) (o + 64)) exponent = Ok (aggregate c)
  ∧ parsePriceInfo (slice data (o + 64) (o + 96)) exponent = Ok (latest c).

(** The fixed part of a price account, when the buffer holds it. *)
Definition price_fixed (data : Buffer) (components : list PriceComponent) : PriceData :=
  let exponent := to_int32 (le_value (slice data 20 24)) in
  let block := slice data 144 176 in
  mkPriceData
    (mkBase (le_value (slice data 0 4)) (le_value (slice data 4 8))
       (le_value (slice data 8 12)) (le_value (slice data 12 16)))
    (mkPrice
       (to_int64 (le_value (slice block 0 8)))
       (PrimFloat.mul (Number (to_int64 (le_value (slice block 0 8))))
          (js_pow (Number 10) (Number exponent)))
       (le_value (slice block 8 16))
       (PrimFloat.mul (Number (le_value (slice block 8 16)))
          (js_pow (Number 10) (Number exponent)))
       (le_value (slice block 16 20))
       (le_value (slice block 20 24))
       (le_value (slice block 24 32)))
    (le_value (slice data 16 20))
    exponent
    (le_value (slice data 24 28))
    (le_value (slice data 32 40))
    (le_value (slice data 40 48))
    (mkPublicKey (slice data 48 80))
    (PKorNull (slice data 80 112))
    (mkPublicKey (slice data 112 144))
    components.

End Decoders.

(** ** Buffers that differ only in magic and version *)

(** [d] and [d'] have the same length and the same bytes from offset 8
    on. *)
Definition same_after_header (d d' : Buffer) : Prop :=
  length d = length d' ∧ drop 8 d = drop 8 d'.

(** A record with its magic and version fields blanked. *)
Definition forget_header (b : Base) : Base := mkBase 0 0 (type b) (size b).

Definition forget_mapping (r : MappingData) : MappingData :=
  mkMappingData (forget_header (mapping_base r)) (nextMappingAccount r)
    (productAccountKeys r).

Definition forget_product (r : ProductData) : ProductData :=
  mkProductData (forget_header (product_base r)) (priceAccountKey r) (product r).

Definition forget_price (r : PriceData) : PriceData :=
  mkPriceData (forget_header (price_base r)) (price_info r) (priceType r)
    (exponent r) (numComponentPrices r) (currentSlot r) (validSlot r)
    (productAccountKey r) (nextPriceAccountKey r)
    (aggregatePriceUpdaterAccountKey r) (priceComponents r).

(** ** Sample inputs *)

(** The integer a double holds, for doubles that hold one. *)
Definition float_to_Z (f : PrimFloat.float) : Z :=
  match FloatOps.Prim2SF f with
  | SpecFloat.S754_finite s m e =>
      let v := Z.shiftl (Z.pos m) e in if s then - v else v
  | _ => 0
  end.

(** Exponentiation by repeated multiplication, for integer exponents: one
    implementation [js_pow] may stand for, used to run the decoders. *)
Definition naive_pow (b e : PrimFloat.float) : PrimFloat.float :=
  let n := float_to_Z e in
  let p := Nat.iter (Z.to_nat (Z.abs n)) (PrimFloat.mul b) PrimFloat.one in
  if n <? 0 then PrimFloat.div PrimFloat.one p else p.

(** A decoding of bytes as text that agrees with [toString] on ASCII
    bytes, used to run the decoders. *)
Definition ascii_toString (bytes : Buffer) : string := String.string_of_list_byte bytes.

(** A header with the format's magic number and version. *)
Definition sample_header (type size : byte) : Buffer :=
  [xd4; xc3; xb2; xa1; x01; x00; x00; x00; type; x00; x00; x00; size; x00; x00; x00].

(** A Price-Info block: mantissa 123456, confidence 5, status 1. *)
Definition sample_block : Buffer :=
  [x40; xe2; x01; x00; x00; x00; x00; x00] ++ [x05; x00; x00; x00; x00; x00; x00; x00]
  ++ [x01; x00; x00; x00] ++ [x00; x00; x00; x00] ++ replicate 8 x00.

(** A Price-Info block with status ordinal 7 and corporate-action
    ordinal 3. *)
Definition odd_block : Buffer :=
  replicate 16 x00 ++ [x07; x00; x00; x00] ++ [x03; x00; x00; x00] ++ replicate 8 x00.

(** A mapping account declaring two products and holding both keys. *)
Definition sample_mapping : Buffer :=
  sample_header x01 x78 ++ [x02; x00; x00; x00] ++ replicate 4 x00
  ++ replicate 32 x00 ++ replicate 32 x0a ++ replicate 32 x0b.

(** A mapping account declaring two products and holding no key. *)
Definition short_mapping : Buffer :=
  sample_header x01 x14 ++ [x02; x00; x00; x00].

(** A product account of 16 bytes: the header alone. *)
Definition short_product : Buffer := sample_header x02 x00.

(** A product account whose used-size, 49, ends right after the first
    key-length byte; the entry [ab -> c] follows. *)
Definition overrun_product : Buffer :=
  sample_header x02 x31 ++ replicate 32 x09 ++ [x02; x61; x62; x01; x63].


(** A product account that declares 60 used bytes and holds 51; its last
    entry has a key and no value length. *)
Definition truncated_product : Buffer :=
  sample_header x02 x3c ++ replicate 32 x09 ++ [x02; x61; x62].

(** A price account with exponent -2, declaring 3 components, whose
    component region starts with an all-zero publisher. *)
Definition sentinel_price : Buffer :=
  sample_header x03 xd0 ++ [x01; x00; x00; x00] ++ [xfe; xff; xff; xff]
  ++ [x03; x00; x00; x00] ++ replicate 4 x00 ++ replicate 16 x00
  ++ replicate 96 x0c ++ sample_block ++ replicate 32 x00.

(** A price account of 208 zero bytes, and the same with other bytes in
    the magic and version fields. *)
Definition blank_price : Buffer := replicate 208 x00.
Definition relabelled_price : Buffer := replicate 8 xff ++ replicate 200 x00.

(** ** Keys as numbers *)

(** The value of a byte sequence read in big-endian order. *)
Definition be_value (bs : Buffer) : Z := le_value (reverse bs).

(** The number a key stands for. The key library reads the bytes it is
    given as one big-endian number and keeps the key as that number, which
    it shows as 32 bytes with zero bytes in front: keys built from
    different byte strings are the same key when these numbers agree. *)
Definition key_value (k : PublicKey) : Z := be_value (key_bytes k).

(** ** The layout of product metadata *)

(** What the metadata region of a product account is made of: a zero
    byte, or a key and a value, each behind a byte that holds its
    length. *)
Inductive metadata_item : Type :=
  | Padding
  | Entry (key value : Buffer).

(** The byte that holds a length below 256. *)
Definition length_byte (n : nat) : byte :=
  default x00 (Byte.of_N (N.of_nat n)).

Definition encode_item (item : metadata_item) : Buffer :=
  match item with
  | Padding => [x00]
  | Entry key value =>
      length_byte (length key) :: key ++ length_byte (length value) :: value
  end.

Definition encode_metadata (items : list metadata_item) : Buffer :=
  concat (encode_item <$> items).

(** Keys are not empty and do not read [__proto__], and lengths fit a
    byte. *)
Definition item_fits (toString : Buffer -> string) (item : metadata_item) : Prop :=
  match item with
  | Padding => True
  | Entry key value =>
      (0 < length key < 256)%nat ∧ (length value < 256)%nat
      ∧ toString key ≠ "__proto__"%string
  end.

(** The entries written into [product] one after the other. *)
Definition insert_items (toString : Buffer -> string) (items : list metadata_item)
    (product : gmap string string) : gmap string string :=
  foldl (λ m item,
           match item with
           | Padding => m
           | Entry key value => <[toString key := toString value]> m
           end) product items.

(** ** Buffers that differ only in a span *)

(** [d] and [d'] have the same length and the same bytes before offset
    [a] and from offset [b] on. *)
Definition same_outside (a b : nat) (d d' : Buffer) : Prop :=
  length d = length d' ∧ take a d = take a d' ∧ drop b d = drop b d'.

(** A price record with its declared component count blanked. *)
Definition forget_count (r : PriceData) : PriceData :=
  mkPriceData (price_base r) (price_info r) (priceType r)
    (exponent r) 0 (currentSlot r) (validSlot r)
    (productAccountKey r) (nextPriceAccountKey r)
    (aggregatePriceUpdaterAccountKey r) (priceComponents r).

(** ** The header, field by field *)

(** [b] holds the four unsigned 32-bit little-endian integers at the
    start of [data]. *)
Definition header_of (data : Buffer) (b : Base) : Prop :=
  16 ≤ len data
  ∧ magic b = le_value (take 4 data)
  ∧ version b = le_value (take 4 (drop 4 data))
  ∧ type b = le_value (take 4 (drop 8 data))
  ∧ size b = le_value (take 4 (drop 12 data))
  ∧ 0 ≤ magic b < 2 ^ 32 ∧ 0 ≤ version b < 2 ^ 32
  ∧ 0 ≤ type b < 2 ^ 32 ∧ 0 ≤ size b < 2 ^ 32.

(** A header with its account type replaced. *)
Definition retype (t : Z) (b : Base) : Base :=
  mkBase (magic b) (version b) t (size b).

(** The three records with the account type of their header replaced. *)
Definition mapping_retype (t : Z) (r : MappingData) : MappingData :=
  mkMappingData (retype t (mapping_base r)) (nextMappingAccount r)
    (productAccountKeys r).

Definition product_retype (t : Z) (r : ProductData) : ProductData :=
  mkProductData (retype t (product_base r)) (priceAccountKey r) (product r).

Definition price_retype (t : Z) (r : PriceData) : PriceData :=
  mkPriceData (retype t (price_base r)) (price_info r) (priceType r)
    (exponent r) (numComponentPrices r) (currentSlot r) (validSlot r)
    (productAccountKey r) (nextPriceAccountKey r)
    (aggregatePriceUpdaterAccountKey r) (priceComponents r).

(** Simplification of a sequence of reads. *)
Ltac run := cbn [mbind result_bind bind result_map].

(** * Facts about the runtime *)

Lemma byte_val_range (b : byte) : 0 ≤ byte_val b < 256.
Proof. unfold byte_val. pose proof (Byte.to_N_bounded b). lia. Qed.

Lemma len_nonneg (data : Buffer) : 0 ≤ len data.
Proof. unfold len. lia. Qed.

Lemma le_value_range (bs : Buffer) : 0 ≤ le_value bs < 256 ^ len bs.
Proof.
  induction bs as [|b bs IH]; [vm_compute; split; [discriminate|done]|].
  replace (len (b :: bs)) with (len bs + 1) by (unfold len; cbn [length]; lia).
  rewrite Z.pow_add_r by (pose proof (len_nonneg bs); lia).
  cbn [le_value]. pose proof (byte_val_range b).
  change (256 ^ 1) with 256. lia.
Qed.

Lemma length_slice (data : Buffer) (s e : Z) :
  0 ≤ s → s ≤ e → e ≤ len data → length (slice data s e) = Z.to_nat (e - s).
Proof.
  intros Hs He Hl. unfold slice, len in *.
  rewrite length_take, length_drop. lia.
Qed.

Lemma len_slice (data : Buffer) (s e : Z) :
  0 ≤ s → len (slice data s e) = Z.max 0 (Z.min (e - s) (len data - s)).
Proof.
  intros Hs. unfold slice, len in *. rewrite length_take, length_drop. lia.
Qed.

Lemma lookup_slice (data : Buffer) (s e : Z) (k : nat) :
  0 ≤ s → (k < Z.to_nat (e - s))%nat →
  slice data s e !! k = data !! (Z.to_nat s + k)%nat.
Proof.
  intros Hs Hk. unfold slice. rewrite lookup_take_lt by done. apply lookup_drop.
Qed.

Lemma byte_at_lookup (data : Buffer) (i : Z) :
  0 ≤ i → byte_at data i = data !! Z.to_nat i.
Proof.
  intros Hi. unfold byte_at. by destruct (Z.ltb_spec i 0); [lia|].
Qed.

Lemma byte_at_outside (data : Buffer) (i : Z) :
  len data ≤ i → byte_at data i = None.
Proof.
  intros Hi. pose proof (len_nonneg data).
  rewrite byte_at_lookup by lia. apply lookup_ge_None. unfold len in *. lia.
Qed.

Lemma byte_at_inside (data : Buffer) (i : Z) :
  0 ≤ i < len data → ∃ b, byte_at data i = Some b.
Proof.
  intros Hi. rewrite byte_at_lookup by lia.
  apply lookup_lt_is_Some. unfold len in *. lia.
Qed.

Lemma u8_slice (data : Buffer) (o n : Z) (k : nat) (b : byte) :
  0 ≤ o → slice data o (o + n) !! k = Some b → u8 data (o + Z.of_nat k) = byte_val b.
Proof.
  intros Ho Hk. unfold u8.
  assert (k < Z.to_nat (o + n - o))%nat as Hlt.
  { apply lookup_lt_Some in Hk. unfold slice in Hk.
    rewrite length_take in Hk. lia. }
  rewrite lookup_slice in Hk by done.
  rewrite byte_at_lookup by lia.
  replace (Z.to_nat (o + Z.of_nat k)) with (Z.to_nat o + k)%nat by lia.
  by rewrite Hk.
Qed.

Lemma lor_shiftl_add (a b n : Z) :
  0 ≤ n → 0 ≤ a < 2 ^ n → Z.lor a (Z.shiftl b n) = a + b * 2 ^ n.
Proof.
  intros Hn Ha. rewrite Z.shiftl_mul_pow2 by done.
  symmetry. apply Z.add_nocarry_lor. apply Z.bits_inj'. intros m Hm.
  rewrite Z.land_spec, Z.bits_0.
  destruct (Z.lt_ge_cases m n) as [Hlt|Hge].
  - rewrite Z.mul_pow2_bits_low by done. apply andb_false_r.
  - rewrite <- (Z.mod_small a (2 ^ n)) by done.
    rewrite Z.mod_pow2_bits_high by lia. done.
Qed.

(** The four bytes a 32-bit read combines. *)
Lemma slice_four (data : Buffer) (o : Z) :
  0 ≤ o → o + 4 ≤ len data →
  ∃ b0 b1 b2 b3, slice data o (o + 4) = [b0; b1; b2; b3]
    ∧ u8 data o = byte_val b0 ∧ u8 data (o + 1) = byte_val b1
    ∧ u8 data (o + 2) = byte_val b2 ∧ u8 data (o + 3) = byte_val b3.
Proof.
  intros Ho Hl. pose proof (length_slice data o (o + 4) Ho ltac:(lia) Hl) as Hlen.
  replace (Z.to_nat (o + 4 - o)) with 4%nat in Hlen by lia.
  destruct (slice data o (o + 4)) as [|b0 [|b1 [|b2 [|b3 [|? ?]]]]] eqn:E;
    try discriminate.
  exists b0, b1, b2, b3. split; [done|].
  pose proof (u8_slice data o 4 0 b0 Ho) as H0.
  pose proof (u8_slice data o 4 1 b1 Ho) as H1.
  pose proof (u8_slice data o 4 2 b2 Ho) as H2.
  pose proof (u8_slice data o 4 3 b3 Ho) as H3.
  rewrite E in H0, H1, H2, H3. rewrite Z.add_0_r in H0.
  auto.
Qed.

Lemma readUInt32LE_inside (data : Buffer) (o : Z) :
  0 ≤ o → o + 4 ≤ len data →
  readUInt32LE data o = Ok (le_value (slice data o (o + 4))).
Proof.
  intros Ho Hl. unfold readUInt32LE.
  destruct (Z.leb_spec (o + 4) (len data)); [|lia].
  destruct (slice_four data o Ho Hl) as (b0 & b1 & b2 & b3 & -> & -> & -> & -> & ->).
  pose proof (byte_val_range b0). pose proof (byte_val_range b1).
  pose proof (byte_val_range b2). pose proof (byte_val_range b3).
  f_equal. cbn [le_value].
  rewrite (lor_shiftl_add (byte_val b0)) by lia.
  rewrite lor_shiftl_add by lia. lia.
Qed.

Lemma readInt32LE_inside (data : Buffer) (o : Z) :
  0 ≤ o → o + 4 ≤ len data →
  readInt32LE data o = Ok (to_int32 (le_value (slice data o (o + 4)))).
Proof.
  intros Ho Hl. unfold readInt32LE.
  destruct (Z.leb_spec (o + 4) (len data)); [|lia].
  destruct (slice_four data o Ho Hl) as (b0 & b1 & b2 & b3 & -> & -> & -> & -> & ->).
  pose proof (byte_val_range b0). pose proof (byte_val_range b1).
  pose proof (byte_val_range b2). pose proof (byte_val_range b3).
  do 2 f_equal. cbn [le_value].
  rewrite (lor_shiftl_add (byte_val b0)) by lia.
  rewrite (lor_shiftl_add _ _ 16) by lia.
  rewrite lor_shiftl_add by lia. lia.
Qed.

Lemma readUInt32LE_outside (data : Buffer) (o : Z) :
  len data < o + 4 → readUInt32LE data o = Throw OutOfRange.
Proof. intros H. unfold readUInt32LE. destruct (Z.leb_spec (o + 4) (len data)); [lia|done]. Qed.

Lemma readBigUInt64LE_inside (data : Buffer) (o : Z) :
  o + 8 ≤ len data →
  readBigUInt64LE data o = Ok (le_value (slice data o (o + 8))).
Proof. intros H. unfold readBigUInt64LE. by destruct (Z.leb_spec (o + 8) (len data)); [|lia]. Qed.

Lemma readBigInt64LE_inside (data : Buffer) (o : Z) :
  o + 8 ≤ len data →
  readBigInt64LE data o = Ok (to_int64 (le_value (slice data o (o + 8)))).
Proof. intros H. unfold readBigInt64LE. by destruct (Z.leb_spec (o + 8) (len data)); [|lia]. Qed.

Lemma to_int64_range (u : Z) :
  0 ≤ u < 2 ^ 64 → - 2 ^ 63 ≤ to_int64 u < 2 ^ 63 ∧ to_int64 u mod 2 ^ 64 = u.
Proof.
  intros Hu. unfold to_int64. destruct (Z.ltb_spec u (2 ^ 63)).
  - split; [lia|]. apply Z.mod_small. lia.
  - split; [lia|]. symmetry. apply (Z.mod_unique_pos _ _ (-1)); lia.
Qed.

Lemma le_value_slice_range (data : Buffer) (o n : Z) :
  0 ≤ o → 0 ≤ n → 0 ≤ le_value (slice data o (o + n)) < 256 ^ n.
Proof.
  intros Ho Hn. pose proof (le_value_range (slice data o (o + n))) as H.
  pose proof (len_slice data o (o + n) Ho) as Hl.
  assert (256 ^ len (slice data o (o + n)) ≤ 256 ^ n).
  { apply Z.pow_le_mono_r; lia. }
  lia.
Qed.

Lemma equals_eq (a b : Buffer) : equals a b = true ↔ a = b.
Proof.
  revert b. induction a as [|x a IH]; intros [|y b]; cbn; try done.
  rewrite andb_true_iff, IH. split.
  - intros [H ->]. apply Byte.byte_dec_bl in H. by subst.
  - intros [= -> ->]. split; [by apply Byte.byte_dec_lb|done].
Qed.

Section Price_info.
Variable js_pow : PrimFloat.float -> PrimFloat.float -> PrimFloat.float.

(** On a block of 32 bytes every read of [parsePriceInfo] is in range. *)
Lemma parsePriceInfo_block (data : Buffer) (exponent : Z) :
  length data = 32%nat →
  parsePriceInfo js_pow data exponent =
    Ok (mkPrice
          (to_int64 (le_value (slice data 0 8)))
          (PrimFloat.mul (Number (to_int64 (le_value (slice data 0 8))))
             (js_pow (Number 10) (Number exponent)))
          (le_value (slice data 8 16))
          (PrimFloat.mul (Number (le_value (slice data 8 16)))
             (js_pow (Number 10) (Number exponent)))
          (le_value (slice data 16 20))
          (le_value (slice data 20 24))
          (le_value (slice data 24 32))).
Proof.
  intros Hlen. assert (len data = 32) as Hl by (unfold len; lia).
  unfold parsePriceInfo.
  rewrite readBigInt64LE_inside by lia. cbn [mbind result_bind bind].
  rewrite !readBigUInt64LE_inside by lia. cbn [mbind result_bind bind].
  rewrite !readUInt32LE_inside by lia. done.
Qed.

(** A block that is not 32 bytes long makes [parsePriceInfo] throw: its
    last read ends at byte 32, and a slice is never longer than 32. *)
Lemma parsePriceInfo_short (data : Buffer) (exponent : Z) :
  len data < 32 → parsePriceInfo js_pow data exponent = Throw OutOfRange.
Proof.
  intros Hl. unfold parsePriceInfo, readBigInt64LE, readBigUInt64LE, readUInt32LE.
  repeat (match goal with |- context [?a <=? ?b] => destruct (Z.leb_spec a b) end;
          cbn [mbind result_bind bind]; try done); lia.
Qed.
End Price_info.

Lemma readBase_inside (data : Buffer) :
  16 ≤ len data →
  readBase data =
    Ok (mkBase (le_value (slice data 0 4)) (le_value (slice data 4 8))
          (le_value (slice data 8 12)) (le_value (slice data 12 16))).
Proof.
  intros Hl. unfold readBase.
  rewrite !readUInt32LE_inside by lia. done.
Qed.

Lemma readBase_outside (data : Buffer) :
  len data < 16 → readBase data = Throw OutOfRange.
Proof.
  intros Hl. unfold readBase, readUInt32LE.
  repeat (match goal with |- context [?a <=? ?b] => destruct (Z.leb_spec a b) end;
          run; try done); lia.
Qed.

(** * The mapping decoder *)

Lemma mapping_loop_keys (data : Buffer) (numProducts : Z) (fuel : nat)
    (i offset : Z) (keys : list PublicKey) :
  (Z.to_nat (numProducts - i) ≤ fuel)%nat →
  mapping_loop data numProducts fuel i offset keys =
    Ok (keys ++ ((λ k, mkPublicKey (slice data (offset + 32 * k) (offset + 32 * k + 32)))
                   <$> seqZ 0 (numProducts - i))).
Proof.
  revert i offset keys.
  induction fuel as [|fuel IH]; intros i offset keys Hfuel; cbn [mapping_loop];
    destruct (Z.ltb_spec i numProducts) as [Hlt|Hge].
  - lia.
  - rewrite seqZ_nil by lia. by rewrite app_nil_r.
  - rewrite IH by lia. f_equal.
    rewrite (seqZ_cons 0 (numProducts - i)) by lia.
    rewrite <- app_assoc. cbn [app fmap list_fmap]. f_equal. f_equal.
    + do 2 f_equal; lia.
    + replace (Z.pred (numProducts - i)) with (numProducts - (i + 1)) by lia.
      rewrite <- (fmap_add_seqZ 1 0). rewrite <- list_fmap_compose.
      apply list_fmap_ext. intros _ k _. cbn. do 2 f_equal; lia.
  - rewrite seqZ_nil by lia. by rewrite app_nil_r.
Qed.

Lemma parseMappingData_inside (data : Buffer) :
  20 ≤ len data →
  parseMappingData data =
    Ok (mkMappingData
          (mkBase (le_value (slice data 0 4)) (le_value (slice data 4 8))
             (le_value (slice data 8 12)) (le_value (slice data 12 16)))
          (PKorNull (slice data 24 56))
          ((λ k, mkPublicKey (slice data (56 + 32 * k) (56 + 32 * k + 32)))
             <$> seqZ 0 (le_value (slice data 16 20)))).
Proof.
  intros Hl. unfold parseMappingData.
  rewrite readBase_inside by lia. run.
  rewrite readUInt32LE_inside by lia. run.
  rewrite mapping_loop_keys by lia. run.
  by rewrite Z.sub_0_r.
Qed.

Lemma parseMappingData_outside (data : Buffer) :
  len data < 20 → parseMappingData data = Throw OutOfRange.
Proof.
  intros Hl. unfold parseMappingData.
  destruct (Z.lt_ge_cases (len data) 16).
  - by rewrite readBase_outside.
  - rewrite readBase_inside by done. run. by rewrite readUInt32LE_outside by lia.
Qed.

(** * The product decoder *)

Section Product.
Variable toString : Buffer -> string.

Abbreviation step := (product_step toString).
Abbreviation loop := (product_loop toString).

(** A key length that is zero or missing: one index further, nothing
    inserted. *)
Lemma product_step_skip (data : Buffer) (idx : Z) (product : gmap string string) :
  (byte_at data idx = None ∨ ∃ kl, byte_at data idx = Some kl ∧ byte_val kl = 0) →
  step data idx product = (Num (idx + 1), product, [ReadKeyLength idx]).
Proof.
  intros [H|(kl & H & H0)]; unfold product_step; rewrite H; [done|].
  by rewrite H0.
Qed.

(** A key length [kl] above zero followed by a value length [vl]. *)
Lemma product_step_entry (data : Buffer) (idx : Z) (product : gmap string string)
    (kl vl : byte) :
  byte_at data idx = Some kl → byte_val kl ≠ 0 →
  byte_at data (idx + 1 + byte_val kl) = Some vl →
  (step data idx product).1 =
    (Num (idx + 1 + byte_val kl + 1 + byte_val vl),
     set_property product
       (toString (slice data (idx + 1) (idx + 1 + byte_val kl)))
       (toString (slice data (idx + 1 + byte_val kl + 1)
                    (idx + 1 + byte_val kl + 1 + byte_val vl)))).
Proof.
  intros Hk Hk0 Hv. unfold product_step. rewrite Hk.
  destruct (Z.eqb_spec (byte_val kl) 0) as [|_]; [done|].
  cbv zeta. by rewrite Hv.
Qed.

(** Any name but [__proto__] is stored. *)
Lemma set_property_stored (product : gmap string string) (key value : string) :
  key ≠ "__proto__"%string → set_property product key value = <[key := value]> product.
Proof. intros Hkey. unfold set_property. by destruct (decide _). Qed.

(** The index moves forward or becomes [NaN]. *)
Lemma product_step_progress (data : Buffer) (idx : Z) (product : gmap string string) :
  match (step data idx product).1.1 with
  | Num j => idx < j
  | NaN => True
  end.
Proof.
  unfold product_step. destruct (byte_at data idx) as [kl|]; [|cbn; lia].
  pose proof (byte_val_range kl).
  destruct (Z.eqb_spec (byte_val kl) 0); [cbn; lia|]. cbv zeta.
  destruct (byte_at data (idx + 1 + byte_val kl)) as [vl|]; [|done].
  pose proof (byte_val_range vl). cbn. lia.
Qed.

(** The only key-length read of a turn is the one at its entry index. *)
Lemma product_step_key_length (data : Buffer) (idx o : Z)
    (product : gmap string string) :
  ReadKeyLength o ∈ (step data idx product).2 → o = idx.
Proof.
  unfold product_step. destruct (byte_at data idx) as [kl|].
  2:{ cbn. intros H%list_elem_of_singleton. congruence. }
  destruct (Z.eqb_spec (byte_val kl) 0).
  { cbn. intros H%list_elem_of_singleton. congruence. }
  cbv zeta. destruct (byte_at data (idx + 1 + byte_val kl)) as [vl|]; cbn [snd];
    rewrite ?elem_of_app, ?elem_of_cons, ?elem_of_app, ?list_elem_of_fmap,
      ?list_elem_of_singleton;
    intros H; repeat destruct H as [H|H]; try congruence;
    try (by destruct H as (? & ? & ?)); by inversion H.
Qed.

Lemma product_loop_unfold (data : Buffer) (bound : Z) (fuel : nat) (idx : Z)
    (product : gmap string string) (reads : list access) :
  idx < bound →
  loop data bound (S fuel) (Num idx) product reads =
    let '(idx', product', r) := step data idx product in
    loop data bound fuel idx' product' (reads ++ r).
Proof. intros H. cbn [product_loop]. by destruct (Z.ltb_spec idx bound); [|lia]. Qed.

(** With fuel for every index below the bound the loop ends. *)
Lemma product_loop_total (data : Buffer) (bound : Z) (fuel : nat) (idx : jsnum)
    (product : gmap string string) (reads : list access) :
  match idx with
  | Num i => (Z.to_nat (bound - i) ≤ fuel)%nat
  | NaN => True
  end →
  ∃ st, loop data bound fuel idx product reads = Ok st.
Proof.
  revert idx product reads.
  induction fuel as [|fuel IH]; intros [i|] product reads Hfuel; cbn [product_loop];
    try (by eexists).
  - destruct (Z.ltb_spec i bound); [lia|by eexists].
  - destruct (Z.ltb_spec i bound); [|by eexists].
    pose proof (product_step_progress data i product) as Hp.
    destruct (step data i product) as [[idx' product'] r]. cbn in Hp.
    apply IH. destruct idx'; [lia|done].
Qed.

(** More fuel does not change a finished run. *)
Lemma product_loop_fuel (data : Buffer) (bound : Z) (fuel fuel' : nat) (idx : jsnum)
    (product : gmap string string) (reads : list access) st :
  (fuel ≤ fuel')%nat →
  loop data bound fuel idx product reads = Ok st →
  loop data bound fuel' idx product reads = Ok st.
Proof.
  revert fuel' idx product reads.
  induction fuel as [|fuel IH]; intros [|fuel'] [i|] product reads Hle;
    cbn [product_loop]; try done; try lia;
    destruct (Z.ltb_spec i bound); try done.
  destruct (step data i product) as [[idx' product'] r].
  apply IH. lia.
Qed.

(** Past the end of the buffer the loop only counts. *)
Lemma product_loop_outside (data : Buffer) (bound : Z) (fuel : nat) (i : Z)
    (product : gmap string string) (reads : list access) st :
  len data ≤ i →
  loop data bound fuel (Num i) product reads = Ok st →
  st.1.2 = product.
Proof.
  revert i reads.
  induction fuel as [|fuel IH]; intros i reads Hi; cbn [product_loop];
    destruct (Z.ltb_spec i bound); try done; try by intros [= <-].
  rewrite product_step_skip by (left; by apply byte_at_outside).
  apply IH. lia.
Qed.

(** A bound beyond the buffer gives the metadata the buffer itself gives. *)
Lemma product_loop_bound (data : Buffer) (bound : Z) (fuel : nat) (idx : jsnum)
    (product : gmap string string) (reads : list access) st :
  len data ≤ bound →
  loop data bound fuel idx product reads = Ok st →
  ∃ st', loop data (len data) fuel idx product reads = Ok st' ∧ st'.1.2 = st.1.2.
Proof.
  intros Hb. revert idx product reads.
  induction fuel as [|fuel IH]; intros [i|] product reads; cbn [product_loop];
    try (intros [= <-]; by eexists).
  - destruct (Z.ltb_spec i bound); [done|]. intros [= <-].
    destruct (Z.ltb_spec i (len data)); [lia|by eexists].
  - destruct (Z.ltb_spec i bound) as [Hlt|Hge].
    + destruct (Z.ltb_spec i (len data)) as [Hin|Hout].
      * destruct (step data i product) as [[idx' product'] r]. apply IH.
      * intros Hrun. eexists. split; [done|]. cbn.
        symmetry. eapply (product_loop_outside data bound (S fuel) i); [done|].
        cbn [product_loop]. destruct (Z.ltb_spec i bound); [|lia]. apply Hrun.
    + intros [= <-]. destruct (Z.ltb_spec i (len data)); [lia|by eexists].
Qed.

(** Every key length is read below the bound, from offset [lo] on. *)
Lemma product_loop_key_lengths (data : Buffer) (bound lo : Z) (fuel : nat) (idx : jsnum)
    (product : gmap string string) (reads : list access) st :
  match idx with Num i => lo ≤ i | NaN => True end →
  (∀ o, ReadKeyLength o ∈ reads → lo ≤ o < bound) →
  loop data bound fuel idx product reads = Ok st →
  (∀ o, ReadKeyLength o ∈ st.2 → lo ≤ o < bound)
  ∧ match st.1.1 with Num j => bound ≤ j | NaN => True end.
Proof.
  revert idx product reads.
  induction fuel as [|fuel IH]; intros [i|] product reads Hlo Hreads;
    cbn [product_loop]; try (by intros [= <-]);
    destruct (Z.ltb_spec i bound); try done; try by intros [= <-].
  pose proof (product_step_progress data i product) as Hp.
  pose proof (λ o, product_step_key_length data i o product) as Hk.
  destruct (step data i product) as [[idx' product'] r]. cbn in Hp, Hk.
  apply IH.
  - destruct idx'; [lia|done].
  - intros o [Ho|Ho]%elem_of_app; [by apply Hreads|]. apply Hk in Ho. lia.
Qed.

Lemma parseProductData_inside (data : Buffer) :
  16 ≤ len data →
  ∃ st, product_metadata toString data (le_value (slice data 12 16)) = Ok st
    ∧ parseProductData toString data =
        Ok (mkProductData
              (mkBase (le_value (slice data 0 4)) (le_value (slice data 4 8))
                 (le_value (slice data 8 12)) (le_value (slice data 12 16)))
              (mkPublicKey (slice data 16 48)) st.1.2).
Proof.
  intros Hl. unfold parseProductData. rewrite readBase_inside by done. run.
  cbn [size].
  destruct (product_loop_total data (le_value (slice data 12 16))
              (Z.to_nat (le_value (slice data 12 16))) (Num 48) ∅ []) as [st Hst];
    [lia|].
  exists st. split; [done|]. unfold product_metadata. by rewrite Hst.
Qed.

Lemma parseProductData_outside (data : Buffer) :
  len data < 16 → parseProductData toString data = Throw OutOfRange.
Proof. intros Hl. unfold parseProductData. by rewrite readBase_outside. Qed.

End Product.

(** * The price decoder *)

Lemma PKorNull_None (data : Buffer) : PKorNull data = None ↔ data = alloc 32.
Proof.
  unfold PKorNull, empty32Buffer.
  destruct (equals data (alloc 32)) eqn:E.
  - apply equals_eq in E. done.
  - split; [done|]. intros H%equals_eq. congruence.
Qed.

Lemma PKorNull_Some (data : Buffer) (k : PublicKey) :
  PKorNull data = Some k ↔ data ≠ alloc 32 ∧ k = mkPublicKey data.
Proof.
  unfold PKorNull, empty32Buffer.
  destruct (equals data (alloc 32)) eqn:E.
  - apply equals_eq in E. split; [done|]. by intros [? _].
  - split.
    + intros [= <-]. split; [|done]. intros H%equals_eq. congruence.
    + by intros [_ ->].
Qed.

Section Price_data.
Variable js_pow : PrimFloat.float -> PrimFloat.float -> PrimFloat.float.

Abbreviation info := (parsePriceInfo js_pow).
Abbreviation loop := (components_loop js_pow).

Lemma parsePriceInfo_enough_fuel (data : Buffer) (exponent : Z) :
  info data exponent ≠ OutOfFuel.
Proof.
  unfold parsePriceInfo, readBigInt64LE, readBigUInt64LE, readUInt32LE.
  repeat (match goal with |- context [?a <=? ?b] => destruct (Z.leb_spec a b) end;
          run; try done).
Qed.

(** A Price-Info slice decodes exactly when it lies inside the buffer. *)
Lemma parsePriceInfo_slice_Ok (data : Buffer) (o exponent : Z) (p : Price) :
  0 ≤ o → info (slice data o (o + 32)) exponent = Ok p → o + 32 ≤ len data.
Proof.
  intros Ho Hp. destruct (Z.le_gt_cases (o + 32) (len data)) as [|Hgt]; [done|].
  rewrite parsePriceInfo_short in Hp; [done|].
  rewrite len_slice by done. lia.
Qed.

Lemma parsePriceInfo_slice_inside (data : Buffer) (o exponent : Z) :
  0 ≤ o → o + 32 ≤ len data → ∃ p, info (slice data o (o + 32)) exponent = Ok p.
Proof.
  intros Ho Hl. eexists. apply parsePriceInfo_block.
  rewrite length_slice by lia. lia.
Qed.

Lemma components_loop_stopped (data : Buffer) (exponent : Z) (fuel : nat) (offset : Z)
    (acc : list PriceComponent) :
  loop data exponent fuel offset acc false = Ok acc.
Proof. destruct fuel; cbn [components_loop]; by rewrite andb_false_r. Qed.

Lemma components_loop_spec (data : Buffer) (exponent : Z) (fuel : nat) (offset : Z)
    (acc l : list PriceComponent) :
  0 ≤ offset →
  loop data exponent fuel offset acc true = Ok l →
  ∃ rest, l = acc ++ rest
    ∧ (∀ (i : nat) c, rest !! i = Some c →
         component_at js_pow data exponent (offset + 96 * Z.of_nat i) c)
    ∧ (len data ≤ offset + 96 * Z.of_nat (length rest)
       ∨ slice data (offset + 96 * Z.of_nat (length rest))
           (offset + 96 * Z.of_nat (length rest) + 32) = alloc 32).
Proof.
  revert offset acc.
  induction fuel as [|fuel IH]; intros offset acc Ho; cbn [components_loop];
    rewrite andb_true_r; destruct (Z.ltb_spec offset (len data)) as [Hlt|Hge];
    try done.
  1,3: intros [= <-]; exists []; rewrite app_nil_r; split; [done|];
       split; [by intros ? ? ?|left; cbn [length]; lia].
  destruct (PKorNull (slice data offset (offset + 32))) as [k|] eqn:Hk.
  - apply PKorNull_Some in Hk as [Hnz ->].
    replace (offset + 32 + 32) with (offset + 64) by lia.
    replace (offset + 64 + 32) with (offset + 96) by lia.
    destruct (info (slice data (offset + 32) (offset + 64)) exponent)
      as [agg| |] eqn:Hagg; run; try done.
    destruct (info (slice data (offset + 64) (offset + 96)) exponent)
      as [lat| |] eqn:Hlat; run; try done.
    intros Hrun. apply IH in Hrun as (rest & -> & Hcomp & Hend); [|lia].
    eexists (_ :: rest). split; [by rewrite <- app_assoc|]. split.
    + intros [|i] c; cbn [lookup list_lookup].
      * intros [= <-]. rewrite Z.mul_0_r, Z.add_0_r. repeat split; try done.
        replace (offset + 96) with (offset + 64 + 32) by lia.
        eapply parsePriceInfo_slice_Ok; [lia|].
        replace (offset + 64 + 32) with (offset + 96) by lia. apply Hlat.
      * intros Hc. apply Hcomp in Hc.
        replace (offset + 96 * Z.of_nat (S i)) with (offset + 96 + 96 * Z.of_nat i) by lia.
        done.
    + cbn [length].
      replace (offset + 96 * Z.of_nat (S (length rest)))
        with (offset + 96 + 96 * Z.of_nat (length rest)) by lia.
      done.
  - apply PKorNull_None in Hk. rewrite components_loop_stopped. intros [= <-].
    exists []. rewrite app_nil_r. split; [done|]. split; [by intros ? ? ?|].
    right. cbn [length]. by rewrite Z.mul_0_r, Z.add_0_r.
Qed.

(** A component region made of whole 96-byte components always decodes. *)
Lemma components_loop_whole (data : Buffer) (exponent : Z) (fuel : nat) (offset : Z)
    (acc : list PriceComponent) (continue : bool) :
  0 ≤ offset →
  (len data - offset) mod 96 = 0 →
  (Z.to_nat (len data - offset) ≤ fuel)%nat →
  ∃ l, loop data exponent fuel offset acc continue = Ok l.
Proof.
  revert offset acc continue.
  induction fuel as [|fuel IH]; intros offset acc [|] Ho Hmod Hfuel;
    try (rewrite components_loop_stopped; by eexists);
    cbn [components_loop]; rewrite andb_true_r;
    destruct (Z.ltb_spec offset (len data)) as [Hlt|Hge]; try (by eexists);
    try lia.
  assert (offset + 96 ≤ len data) as Hroom.
  { apply Z.mod_divide in Hmod as [q Hq]; lia. }
  destruct (PKorNull (slice data offset (offset + 32))) as [k|].
  - destruct (parsePriceInfo_slice_inside data (offset + 32) exponent) as [agg ->];
      [lia..|]. run.
    destruct (parsePriceInfo_slice_inside data (offset + 32 + 32) exponent) as [lat ->];
      [lia..|]. run.
    apply IH; [lia| |lia].
    replace (len data - (offset + 32 + 32 + 32)) with (len data - offset + (-1) * 96) by lia.
    by rewrite Z.mod_add.
  - rewrite components_loop_stopped. by eexists.
Qed.

(** The loop never runs out of the fuel [parsePriceData] gives it. *)
Lemma components_loop_enough_fuel (data : Buffer) (exponent : Z) (fuel : nat) (offset : Z)
    (acc : list PriceComponent) (continue : bool) :
  (Z.to_nat (len data - offset) ≤ fuel)%nat →
  loop data exponent fuel offset acc continue ≠ OutOfFuel.
Proof.
  revert offset acc continue.
  induction fuel as [|fuel IH]; intros offset acc [|] Hfuel;
    try (by rewrite components_loop_stopped);
    cbn [components_loop]; rewrite andb_true_r;
    destruct (Z.ltb_spec offset (len data)) as [Hlt|Hge]; try done; try lia.
  destruct (PKorNull (slice data offset (offset + 32))) as [k|].
  - pose proof (parsePriceInfo_enough_fuel (slice data (offset + 32) (offset + 32 + 32)) exponent).
    destruct (info (slice data (offset + 32) (offset + 32 + 32)) exponent); run; try done.
    pose proof (parsePriceInfo_enough_fuel
                  (slice data (offset + 32 + 32) (offset + 32 + 32 + 32)) exponent).
    destruct (info (slice data (offset + 32 + 32) (offset + 32 + 32 + 32)) exponent);
      run; try done.
    apply IH. lia.
  - by rewrite components_loop_stopped.
Qed.

Lemma parsePriceData_inside (data : Buffer) :
  176 ≤ len data →
  parsePriceData js_pow data =
    result_map (price_fixed js_pow data)
      (loop data (to_int32 (le_value (slice data 20 24))) (length data) 176 [] true).
Proof.
  intros Hl. unfold parsePriceData. rewrite readBase_inside by lia. run.
  repeat (first [rewrite readUInt32LE_inside by lia
                 |rewrite readInt32LE_inside by lia
                 |rewrite readBigUInt64LE_inside by lia]; run).
  rewrite parsePriceInfo_block by (rewrite length_slice; lia). run.
  done.
Qed.

Lemma parsePriceData_outside (data : Buffer) :
  len data < 176 → parsePriceData js_pow data = Throw OutOfRange.
Proof.
  intros Hl. unfold parsePriceData.
  destruct (Z.lt_ge_cases (len data) 48) as [Hs|Hs].
  - unfold readBase, readBigUInt64LE, readInt32LE, readUInt32LE.
    repeat (match goal with |- context [?a <=? ?b] => destruct (Z.leb_spec a b) end;
            run; try done); lia.
  - rewrite readBase_inside by lia. run.
    repeat (first [rewrite readUInt32LE_inside by lia
                   |rewrite readInt32LE_inside by lia
                   |rewrite readBigUInt64LE_inside by lia]; run).
    rewrite parsePriceInfo_short; [done|]. rewrite len_slice by lia. lia.
Qed.

End Price_data.

(** * Buffers that differ only in magic and version *)

Section Same_after_header.
Variables d d' : Buffer.
Hypothesis Hsame : same_after_header d d'.

Lemma same_len : len d = len d'.
Proof. destruct Hsame as [Hl _]. unfold len. by rewrite Hl. Qed.

Lemma same_slice (s e : Z) : 8 ≤ s → slice d s e = slice d' s e.
Proof.
  intros Hs. destruct Hsame as [_ Hd]. unfold slice. f_equal.
  replace (Z.to_nat s) with (8 + (Z.to_nat s - 8))%nat by lia.
  by rewrite <- !drop_drop, Hd.
Qed.

Lemma same_byte_at (i : Z) : 8 ≤ i → byte_at d i = byte_at d' i.
Proof.
  intros Hi. destruct Hsame as [_ Hd]. rewrite !byte_at_lookup by lia.
  replace (Z.to_nat i) with (8 + (Z.to_nat i - 8))%nat by lia.
  by rewrite <- !lookup_drop, Hd.
Qed.

Lemma same_u8 (i : Z) : 8 ≤ i → u8 d i = u8 d' i.
Proof. intros Hi. unfold u8. by rewrite same_byte_at. Qed.

Lemma same_readUInt32LE (o : Z) : 8 ≤ o → readUInt32LE d o = readUInt32LE d' o.
Proof.
  intros Ho. unfold readUInt32LE.
  by rewrite same_len, !(same_u8 _) by lia.
Qed.

Lemma same_readInt32LE (o : Z) : 8 ≤ o → readInt32LE d o = readInt32LE d' o.
Proof.
  intros Ho. unfold readInt32LE.
  by rewrite same_len, !(same_u8 _) by lia.
Qed.

Lemma same_readBigUInt64LE (o : Z) : 8 ≤ o → readBigUInt64LE d o = readBigUInt64LE d' o.
Proof. intros Ho. unfold readBigUInt64LE. by rewrite same_len, same_slice. Qed.

(** The header of one buffer is read exactly when the other's is. *)
Lemma same_readBase :
  result_map forget_header (readBase d) = result_map forget_header (readBase d').
Proof.
  unfold readBase.
  rewrite (same_readUInt32LE 8), (same_readUInt32LE 12) by lia.
  pose proof same_len as Hl.
  destruct (Z.le_gt_cases 4 (len d)).
  2:{ by rewrite !(readUInt32LE_outside _ 0) by lia. }
  rewrite !(readUInt32LE_inside _ 0) by lia. run.
  destruct (Z.le_gt_cases 8 (len d)).
  2:{ by rewrite !(readUInt32LE_outside _ 4) by lia. }
  rewrite !(readUInt32LE_inside _ 4) by lia. run.
  destruct (readUInt32LE d' 8); run; try done.
  destruct (readUInt32LE d' 12); run; done.
Qed.

Lemma same_mapping_loop (n : Z) (fuel : nat) (i offset : Z) (keys : list PublicKey) :
  8 ≤ offset →
  mapping_loop d n fuel i offset keys = mapping_loop d' n fuel i offset keys.
Proof.
  revert i offset keys. induction fuel as [|fuel IH]; intros i offset keys Ho;
    cbn [mapping_loop]; [done|].
  destruct (i <? n); [|done]. rewrite same_slice by done. apply IH. lia.
Qed.

Lemma same_product_step toString (idx : Z) (product : gmap string string) :
  8 ≤ idx → product_step toString d idx product = product_step toString d' idx product.
Proof.
  intros Hi. unfold product_step. rewrite same_byte_at by done.
  destruct (byte_at d' idx) as [kl|]; [|done].
  pose proof (byte_val_range kl).
  rewrite (same_byte_at (idx + 1 + byte_val kl)) by lia.
  rewrite (same_slice (idx + 1)) by lia.
  destruct (byte_at d' (idx + 1 + byte_val kl)); [|done].
  by rewrite (same_slice (idx + 1 + byte_val kl + 1)) by lia.
Qed.

Lemma same_product_loop toString (bound : Z) (fuel : nat) (idx : jsnum)
    (product : gmap string string) (reads : list access) :
  match idx with Num i => 8 ≤ i | NaN => True end →
  product_loop toString d bound fuel idx product reads
  = product_loop toString d' bound fuel idx product reads.
Proof.
  revert idx product reads.
  induction fuel as [|fuel IH]; intros [i|] product reads Hi; cbn [product_loop];
    try done.
  destruct (i <? bound); [|done].
  rewrite same_product_step by done.
  pose proof (product_step_progress toString d' i product) as Hp.
  destruct (product_step toString d' i product) as [[idx' product'] r]. cbn in Hp.
  apply IH. destruct idx'; [lia|done].
Qed.

Lemma same_components_loop js_pow (exponent : Z) (fuel : nat) (offset : Z)
    (acc : list PriceComponent) (continue : bool) :
  8 ≤ offset →
  components_loop js_pow d exponent fuel offset acc continue
  = components_loop js_pow d' exponent fuel offset acc continue.
Proof.
  revert offset acc continue.
  induction fuel as [|fuel IH]; intros offset acc continue Ho;
    cbn [components_loop]; rewrite same_len; [done|].
  destruct ((offset <? len d') && continue); [|done].
  rewrite !(same_slice _) by lia.
  destruct (PKorNull (slice d' offset (offset + 32))); [|apply IH; lia].
  destruct (parsePriceInfo js_pow (slice d' (offset + 32) (offset + 32 + 32)) exponent);
    run; try done.
  destruct (parsePriceInfo js_pow (slice d' (offset + 32 + 32) (offset + 32 + 32 + 32))
              exponent); run; try done.
  apply IH. lia.
Qed.

Lemma same_parseMappingData :
  result_map forget_mapping (parseMappingData d)
  = result_map forget_mapping (parseMappingData d').
Proof.
  unfold parseMappingData. pose proof same_readBase as Hb.
  rewrite (same_readUInt32LE 16), (same_slice 24) by lia.
  destruct (readBase d) as [b| |], (readBase d') as [b'| |];
    revert Hb; run; try done; try (by intros [= ->]).
  intros [= Ht Hs].
  destruct (readUInt32LE d' 16) as [n| |]; run; try done.
  rewrite same_mapping_loop by lia.
  destruct (mapping_loop d' n (Z.to_nat n) 0 56 []); run; try done.
  unfold forget_mapping, forget_header. cbn. by rewrite Ht, Hs.
Qed.

Lemma same_parseProductData toString :
  result_map forget_product (parseProductData toString d)
  = result_map forget_product (parseProductData toString d').
Proof.
  unfold parseProductData, product_metadata. pose proof same_readBase as Hb.
  rewrite (same_slice 16) by lia.
  destruct (readBase d) as [b| |], (readBase d') as [b'| |];
    revert Hb; run; try done; try (by intros [= ->]).
  intros [= Ht Hs]. rewrite Hs.
  rewrite same_product_loop by lia.
  destruct (product_loop toString d' (size b') (Z.to_nat (size b')) (Num 48) ∅ []);
    run; try done.
  unfold forget_product, forget_header. cbn. by rewrite Ht, Hs.
Qed.

Lemma same_parsePriceData js_pow :
  result_map forget_price (parsePriceData js_pow d)
  = result_map forget_price (parsePriceData js_pow d').
Proof.
  unfold parsePriceData. pose proof same_readBase as Hb.
  rewrite (same_readUInt32LE 16), (same_readInt32LE 20), (same_readUInt32LE 24),
    (same_readBigUInt64LE 32), (same_readBigUInt64LE 40), (same_slice 48),
    (same_slice 80), (same_slice 112), (same_slice 144) by lia.
  destruct Hsame as [-> _].
  destruct (readBase d) as [b| |], (readBase d') as [b'| |];
    revert Hb; run; try done; try (by intros [= ->]).
  intros [= Ht Hs].
  destruct (readUInt32LE d' 16); run; try done.
  destruct (readInt32LE d' 20) as [e| |]; run; try done.
  destruct (readUInt32LE d' 24); run; try done.
  destruct (readBigUInt64LE d' 32); run; try done.
  destruct (readBigUInt64LE d' 40); run; try done.
  destruct (parsePriceInfo js_pow (slice d' 144 176) e); run; try done.
  rewrite same_components_loop by lia.
  destruct (components_loop js_pow d' e (length d') 176 [] true); run; try done.
  unfold forget_price, forget_header. cbn. by rewrite Ht, Hs.
Qed.

End Same_after_header.

(** * Buffers that share a prefix *)

Section Same_prefix.
Variables (d d' : Buffer) (n : Z).
Hypothesis Hprefix : take (Z.to_nat n) d = take (Z.to_nat n) d'.
Hypothesis Hd : n ≤ len d.

Lemma prefix_len : n ≤ len d'.
Proof.
  pose proof (f_equal length Hprefix) as H. rewrite !length_take in H.
  unfold len in *. lia.
Qed.

Lemma prefix_slice (s e : Z) : 0 ≤ s → e ≤ n → slice d s e = slice d' s e.
Proof.
  intros Hs He. unfold slice.
  assert (∀ x : Buffer,
            take (Z.to_nat (e - s)) (drop (Z.to_nat s) x)
            = take (Z.to_nat (e - s)) (drop (Z.to_nat s) (take (Z.to_nat n) x))) as Hx.
  { intros x. rewrite skipn_firstn_comm, take_take. f_equal. lia. }
  by rewrite (Hx d), (Hx d'), Hprefix.
Qed.

Lemma prefix_readUInt32LE (o : Z) :
  0 ≤ o → o + 4 ≤ n → readUInt32LE d o = readUInt32LE d' o.
Proof.
  intros Ho Hn. pose proof prefix_len.
  rewrite !readUInt32LE_inside by lia. by rewrite prefix_slice by lia.
Qed.

Lemma prefix_readInt32LE (o : Z) :
  0 ≤ o → o + 4 ≤ n → readInt32LE d o = readInt32LE d' o.
Proof.
  intros Ho Hn. pose proof prefix_len.
  rewrite !readInt32LE_inside by lia. by rewrite prefix_slice by lia.
Qed.

Lemma prefix_readBigUInt64LE (o : Z) :
  0 ≤ o → o + 8 ≤ n → readBigUInt64LE d o = readBigUInt64LE d' o.
Proof.
  intros Ho Hn. pose proof prefix_len.
  rewrite !readBigUInt64LE_inside by lia. by rewrite prefix_slice by lia.
Qed.

(** A run of the component loop that ended on a sentinel inside the
    shared prefix is the run on the other buffer too. *)
Lemma prefix_components_loop js_pow (exponent : Z) (fuel fuel' : nat) (offset : Z)
    (acc rest : list PriceComponent) :
  0 ≤ offset →
  components_loop js_pow d exponent fuel offset acc true = Ok (acc ++ rest) →
  slice d (offset + 96 * Z.of_nat (length rest))
    (offset + 96 * Z.of_nat (length rest) + 32) = alloc 32 →
  offset + 96 * Z.of_nat (length rest) + 32 ≤ n →
  (Z.to_nat (n - offset) ≤ fuel')%nat →
  components_loop js_pow d' exponent fuel' offset acc true = Ok (acc ++ rest).
Proof.
  pose proof prefix_len as Hd'.
  revert fuel' offset acc rest.
  induction fuel as [|fuel IH]; intros fuel' offset acc rest Ho;
    cbn [components_loop]; rewrite andb_true_r;
    destruct (Z.ltb_spec offset (len d)) as [Hlt|Hge]; try done.
  1,3: intros [= Hrun] Hz Hn _; apply (f_equal length) in Hrun;
       rewrite length_app in Hrun; assert (length rest = 0%nat) as Hr by lia;
       rewrite Hr, Z.mul_0_r, Z.add_0_r in Hn; lia.
  destruct (PKorNull (slice d offset (offset + 32))) as [k|] eqn:Hk.
  - destruct (parsePriceInfo js_pow (slice d (offset + 32) (offset + 32 + 32)) exponent)
      as [agg| |] eqn:Hagg; run; try done.
    destruct (parsePriceInfo js_pow (slice d (offset + 32 + 32) (offset + 32 + 32 + 32))
                exponent) as [lat| |] eqn:Hlat; run; try done.
    intros Hrun Hz Hn Hfuel.
    pose proof Hrun as Hspec.
    apply components_loop_spec in Hspec as (rest' & Heq & _); [|lia].
    rewrite <- app_assoc in Heq. apply app_inv_head in Heq. subst rest.
    cbn [length app] in Hz, Hn.
    destruct fuel' as [|fuel']; [lia|]. cbn [components_loop]. rewrite andb_true_r.
    destruct (Z.ltb_spec offset (len d')); [|lia].
    rewrite <- !(prefix_slice _) by lia. rewrite Hk, Hagg. run. rewrite Hlat. run.
    rewrite (app_assoc acc [_] rest'). apply IH; try lia.
    + by rewrite <- app_assoc.
    + replace (offset + 32 + 32 + 32 + 96 * Z.of_nat (length rest'))
        with (offset + 96 * Z.of_nat (S (length rest'))) by lia.
      done.
  - rewrite components_loop_stopped. intros Hrun Hz Hn Hfuel.
    injection Hrun as Hrun. rewrite <- (app_nil_r acc) in Hrun at 1.
    apply app_inv_head in Hrun. subst rest.
    cbn [length] in Hn. rewrite Z.mul_0_r, Z.add_0_r in Hn.
    destruct fuel' as [|fuel']; [lia|]. cbn [components_loop]. rewrite andb_true_r.
    destruct (Z.ltb_spec offset (len d')); [|lia].
    rewrite <- prefix_slice by lia. rewrite Hk.
    rewrite components_loop_stopped. by rewrite app_nil_r.
Qed.

Lemma prefix_price_fixed js_pow (l : list PriceComponent) :
  176 ≤ n → price_fixed js_pow d l = price_fixed js_pow d' l.
Proof.
  intros Hn. unfold price_fixed. by rewrite !(prefix_slice _) by lia.
Qed.

End Same_prefix.

Section Sentinel.
Variable js_pow : PrimFloat.float -> PrimFloat.float -> PrimFloat.float.

(** Bytes after the sentinel do not matter. *)
Lemma parsePriceData_after_sentinel (d d' : Buffer) (r : PriceData) :
  parsePriceData js_pow d = Ok r →
  slice d (176 + 96 * Z.of_nat (length (priceComponents r)))
    (176 + 96 * Z.of_nat (length (priceComponents r)) + 32) = alloc 32 →
  take (Z.to_nat (176 + 96 * Z.of_nat (length (priceComponents r)) + 32)) d
  = take (Z.to_nat (176 + 96 * Z.of_nat (length (priceComponents r)) + 32)) d' →
  parsePriceData js_pow d' = Ok r.
Proof.
  destruct (Z.lt_ge_cases (len d) 176) as [Hs|Hs];
    [by rewrite parsePriceData_outside|].
  rewrite parsePriceData_inside by done.
  destruct (components_loop _ _ _ _ _ _ _) as [l| |] eqn:Hl; run; try done.
  intros [= <-]. cbn [priceComponents price_fixed]. intros Hz Hprefix.
  set (n := 176 + 96 * Z.of_nat (length l) + 32) in *.
  assert (n ≤ len d) as Hn.
  { pose proof (len_slice d (n - 32) n ltac:(lia)) as Hlen.
    replace (n - 32) with (176 + 96 * Z.of_nat (length l)) in Hlen by lia.
    rewrite Hz in Hlen. change (len (alloc 32)) with 32 in Hlen. lia. }
  pose proof (prefix_len d d' n Hprefix Hn) as Hn'.
  rewrite parsePriceData_inside by lia.
  rewrite <- (prefix_slice d d' n Hprefix 20 24) by lia.
  rewrite (prefix_components_loop d d' n Hprefix Hn js_pow _ (length d) (length d') 176 [] l);
    try done; try lia.
  - run. f_equal. symmetry. apply (prefix_price_fixed d d' n Hprefix). lia.
  - unfold len in *. lia.
Qed.

End Sentinel.

(** * The claims *)

(** C1. For every 32-byte Price-Info block and every integer exponent the
    decoder succeeds; the price mantissa is the signed 64-bit little-endian
    integer of bytes 0-7 and the confidence mantissa the unsigned one of
    bytes 8-15; the scaled price and confidence are the mantissa converted
    to a double and multiplied, as doubles, by [10 ** exponent]. With
    [10 ** -2] evaluating to the double 0.01, mantissa 123456 and exponent
    -2 give the price 1234.56. *)
Theorem C1_price_scaling js_pow (data : Buffer) (exponent : Z) :
  length data = 32%nat →
  ∃ r, parsePriceInfo js_pow data exponent = Ok r
    ∧ - 2 ^ 63 ≤ priceComponent r < 2 ^ 63
    ∧ priceComponent r mod 2 ^ 64 = le_value (take 8 data)
    ∧ confidenceComponent r = le_value (take 8 (drop 8 data))
    ∧ 0 ≤ confidenceComponent r < 2 ^ 64
    ∧ price r = PrimFloat.mul (Number (priceComponent r))
                  (js_pow (Number 10) (Number exponent))
    ∧ confidence r = PrimFloat.mul (Number (confidenceComponent r))
                       (js_pow (Number 10) (Number exponent))
    ∧ (priceComponent r = 123456 → exponent = -2 →
       js_pow (Number 10) (Number (-2)) = 0.01%float →
       price r = 1234.56%float).
Proof.
  intros Hlen. rewrite parsePriceInfo_block by done. eexists. split; [done|].
  cbn [priceComponent confidenceComponent price confidence].
  pose proof (le_value_slice_range data 0 8 ltac:(lia) ltac:(lia)) as Hp.
  pose proof (le_value_slice_range data 8 8 ltac:(lia) ltac:(lia)) as Hc.
  change (slice data 0 (0 + 8)) with (take 8 data) in Hp.
  change (slice data 8 (8 + 8)) with (take 8 (drop 8 data)) in Hc.
  change (slice data 0 8) with (take 8 data).
  change (slice data 8 16) with (take 8 (drop 8 data)).
  destruct (to_int64_range (le_value (take 8 data))) as [Hr Hm]; [done|].
  repeat split; try done; try lia.
  intros -> -> ->. by vm_compute.
Qed.

Lemma C1_price_scaling_witness :
  ∃ r, parsePriceInfo naive_pow sample_block (-2) = Ok r ∧ price r = 1234.56%float.
Proof.
  destruct (C1_price_scaling naive_pow sample_block (-2) eq_refl)
    as (r & Hr & _ & _ & _ & _ & _ & _ & Hex).
  exists r. split; [exact Hr|]. apply Hex; [|reflexivity|by vm_compute].
  vm_compute in Hr. injection Hr as <-. reflexivity.
Defined.

(** C2. Whenever [parsePriceData] returns a record, its component list
    holds, in order, the components decoded from the consecutive 96-byte
    triples at offsets 176, 272, ...: each has a publisher span that is
    not all zero, and the list ends where the buffer is exhausted or where
    the next publisher span is 32 zero bytes. The decoder never runs out
    of fuel, it returns a record on every buffer whose component region is
    a whole number of triples, and a buffer with 32 zero bytes at offset
    176 decodes to the empty list whatever its declared count. What
    follows the sentinel is ignored: a buffer with the same bytes up to
    the end of the sentinel decodes to the same record. *)
Theorem C2_components_until_sentinel js_pow (data : Buffer) :
  (∀ r, parsePriceData js_pow data = Ok r →
     (∀ (i : nat) c, priceComponents r !! i = Some c →
        component_at js_pow data (exponent r) (176 + 96 * Z.of_nat i) c)
     ∧ (len data ≤ 176 + 96 * Z.of_nat (length (priceComponents r))
        ∨ slice data (176 + 96 * Z.of_nat (length (priceComponents r)))
            (176 + 96 * Z.of_nat (length (priceComponents r)) + 32) = alloc 32))
  ∧ parsePriceData js_pow data ≠ OutOfFuel
  ∧ (176 ≤ len data → (len data - 176) mod 96 = 0 →
     ∃ r, parsePriceData js_pow data = Ok r)
  ∧ (slice data 176 208 = alloc 32 →
     ∃ r, parsePriceData js_pow data = Ok r
       ∧ priceComponents r = []
       ∧ numComponentPrices r = le_value (slice data 24 28))
  ∧ (∀ data' r, parsePriceData js_pow data = Ok r →
       let stop := 176 + 96 * Z.of_nat (length (priceComponents r)) in
       slice data stop (stop + 32) = alloc 32 →
       take (Z.to_nat (stop + 32)) data = take (Z.to_nat (stop + 32)) data' →
       parsePriceData js_pow data' = Ok r).
Proof.
  split; [|split; [|split; [|split]]].
  - intros r.
    destruct (Z.lt_ge_cases (len data) 176) as [Hs|Hs];
      [by rewrite parsePriceData_outside|].
    rewrite parsePriceData_inside by done.
    destruct (components_loop _ _ _ _ _ _ _) as [l| |] eqn:Hl; run; try done.
    intros [= <-]. cbn [priceComponents exponent price_fixed].
    apply components_loop_spec in Hl as (rest & -> & Hcomp & Hend); [|lia].
    split; [apply Hcomp|apply Hend].
  - destruct (Z.lt_ge_cases (len data) 176) as [Hs|Hs];
      [by rewrite parsePriceData_outside|].
    rewrite parsePriceData_inside by done.
    pose proof (components_loop_enough_fuel js_pow data
                  (to_int32 (le_value (slice data 20 24))) (length data) 176 [] true) as Hn.
    destruct (components_loop _ _ _ _ _ _ _); run; try done.
    intros _. apply Hn; [unfold len; lia|done].
  - intros Hs Hmod. rewrite parsePriceData_inside by done.
    destruct (components_loop_whole js_pow data
                (to_int32 (le_value (slice data 20 24))) (length data) 176 [] true)
      as [l ->]; [lia|done|unfold len; lia|]. run. by eexists.
  - intros Hz.
    assert (208 ≤ len data) as Hs.
    { pose proof (len_slice data 176 208 ltac:(lia)) as Hl. rewrite Hz in Hl.
      change (len (alloc 32)) with 32 in Hl. lia. }
    rewrite parsePriceData_inside by lia.
    destruct (length data) as [|fuel] eqn:Hlen; [unfold len in Hs; lia|].
    cbn [components_loop].
    destruct (Z.ltb_spec 176 (len data)); [|lia]. cbn [andb].
    change (176 + 32) with 208. apply PKorNull_None in Hz. rewrite Hz.
    rewrite components_loop_stopped. run. by eexists.
  - intros data' r Hr stop. by apply parsePriceData_after_sentinel.
Qed.

Lemma C2_components_until_sentinel_witness :
  ∃ r, parsePriceData naive_pow sentinel_price = Ok r
    ∧ priceComponents r = [] ∧ numComponentPrices r = 3.
Proof.
  destruct (C2_components_until_sentinel naive_pow sentinel_price)
    as (_ & _ & _ & H & _).
  destruct (H eq_refl) as (r & Hr & Hc & Hn).
  exists r. split; [exact Hr|]. split; [exact Hc|]. rewrite Hn. reflexivity.
Defined.




(** C4. For every mapping account that holds the product count, the
    decoded key list has exactly as many entries as the unsigned 32-bit
    count at offset 16 says, whatever the length of the rest of the
    buffer; entry i is built from the slice at offsets 56 + 32 i to
    56 + 32 i + 32, which is those 32 bytes of the buffer when the buffer
    holds them. *)
Theorem C4_product_keys_by_count (data : Buffer) :
  20 ≤ len data →
  ∃ r, parseMappingData data = Ok r
    ∧ Z.of_nat (length (productAccountKeys r)) = le_value (slice data 16 20)
    ∧ ∀ i, 0 ≤ i < le_value (slice data 16 20) →
        ∃ k, productAccountKeys r !! Z.to_nat i = Some k
          ∧ key_bytes k = slice data (56 + 32 * i) (56 + 32 * i + 32)
          ∧ (56 + 32 * i + 32 ≤ len data →
             length (key_bytes k) = 32%nat
             ∧ ∀ j, (j < 32)%nat →
                 key_bytes k !! j = data !! (Z.to_nat (56 + 32 * i) + j)%nat).
Proof.
  intros Hl. rewrite parseMappingData_inside by done.
  eexists. split; [done|]. cbn [productAccountKeys].
  pose proof (le_value_slice_range data 16 4 ltac:(lia) ltac:(lia)) as Hn.
  split.
  - rewrite length_fmap, length_seqZ. replace (16 + 4) with 20 in Hn by lia. lia.
  - intros i Hi. eexists. split; [|split].
    + rewrite list_lookup_fmap, lookup_seqZ_lt by lia. cbn. rewrite Z2Nat.id by lia.
      reflexivity.
    + cbn. do 2 f_equal.
    + cbn [key_bytes]. intros Hin. split.
      * rewrite length_slice by lia. lia.
      * intros j Hj. apply lookup_slice; lia.
Qed.

Lemma C4_product_keys_by_count_witness :
  ∃ r, parseMappingData sample_mapping = Ok r
    ∧ productAccountKeys r
      = [mkPublicKey (replicate 32 x0a); mkPublicKey (replicate 32 x0b)].
Proof.
  destruct (C4_product_keys_by_count sample_mapping ltac:(by vm_compute))
    as (r & Hr & _ & _).
  exists r. split; [exact Hr|]. vm_compute in Hr. injection Hr as <-. reflexivity.
Defined.

(** C5. For a 32-byte input [PKorNull] returns null exactly when all 32
    bytes are zero; otherwise it returns a key holding the 32 input bytes
    unchanged. *)
Theorem C5_PKorNull_absent_iff_zero (data : Buffer) :
  length data = 32%nat →
  (PKorNull data = None ↔ Forall (λ b, b = x00) data)
  ∧ (¬ Forall (λ b, b = x00) data →
     ∃ k, PKorNull data = Some k ∧ key_bytes k = data ∧ length (key_bytes k) = 32%nat).
Proof.
  intros Hlen.
  assert (data = alloc 32 ↔ Forall (λ b, b = x00) data) as Hz.
  { unfold alloc. split.
    - intros ->. by apply Forall_replicate.
    - intros H. symmetry. apply replicate_as_Forall. split; [done|].
      eapply Forall_impl; [apply H|]. by intros ? ->. }
  split.
  - by rewrite PKorNull_None.
  - intros Hnz. exists (mkPublicKey data). split; [|done].
    apply PKorNull_Some. split; [|done]. by rewrite Hz.
Qed.

Lemma C5_PKorNull_absent_iff_zero_witness :
  PKorNull (alloc 32) = None
  ∧ PKorNull (replicate 32 x0a) = Some (mkPublicKey (replicate 32 x0a)).
Proof.
  pose proof (C5_PKorNull_absent_iff_zero (alloc 32) eq_refl) as [H _].
  split; [|reflexivity]. apply H. unfold alloc. by apply Forall_replicate.
Defined.

(** C6, as the code has it. With a used-size within the buffer the
    metadata loop ends, and every key-length byte it reads lies at an
    offset from 48 up to, not including, the used-size, inside the buffer;
    the loop ends with [idx] at or beyond the used-size or [NaN]. The
    loop checks nothing else against the used-size. *)
Theorem C6_key_lengths_below_size toString (data : Buffer) :
  16 ≤ len data →
  le_value (slice data 12 16) ≤ len data →
  ∃ r st, parseProductData toString data = Ok r
    ∧ size (product_base r) = le_value (slice data 12 16)
    ∧ product_metadata toString data (size (product_base r)) = Ok st
    ∧ product r = st.1.2
    ∧ (∀ o, ReadKeyLength o ∈ st.2 →
         48 ≤ o < size (product_base r) ∧ byte_at data o ≠ None)
    ∧ match st.1.1 with Num j => size (product_base r) ≤ j | NaN => True end.
Proof.
  intros Hl Hsize.
  destruct (parseProductData_inside toString data Hl) as (st & Hst & ->).
  eexists _, st. cbn [product_base size product]. repeat split; try done.
  - eapply (product_loop_key_lengths toString data _ 48); [..|apply Hst|]; try done.
    intros ? []%elem_of_nil.
  - eapply (product_loop_key_lengths toString data _ 48); [..|apply Hst|]; try done.
    intros ? []%elem_of_nil.
  - assert (48 ≤ o < le_value (slice data 12 16)) as Ho.
    { eapply (product_loop_key_lengths toString data _ 48); [..|apply Hst|]; try done.
      intros ? []%elem_of_nil. }
    destruct (byte_at_inside data o) as [b Hb]; [lia|]. by rewrite Hb.
  - eapply (product_loop_key_lengths toString data _ 48); [..|apply Hst]; try done.
    intros ? []%elem_of_nil.
Qed.

Lemma C6_key_lengths_below_size_witness :
  ∃ st, product_metadata ascii_toString overrun_product 49 = Ok st
    ∧ ∀ o, ReadKeyLength o ∈ st.2 → 48 ≤ o < 49.
Proof.
  destruct (C6_key_lengths_below_size ascii_toString overrun_product
              ltac:(by vm_compute) ltac:(by vm_compute))
    as (r & st & Hr & Hsz & Hst & _ & Hk & _).
  change (le_value (slice overrun_product 12 16)) with 49 in Hsz.
  rewrite Hsz in Hst, Hk. exists st. split; [exact Hst|].
  intros o Ho. apply (Hk o Ho).
Defined.

(** C6 fails as stated: with used-size 49 inside a buffer of 53 bytes the
    loop reads the key bytes at 49 and 50, the value length at 51 and the
    value byte at 52. *)
Lemma C6_counterexample :
  result_map size (readBase overrun_product) = Ok 49
  ∧ len overrun_product = 53
  ∧ result_map snd (product_metadata ascii_toString overrun_product 49)
    = Ok [ReadKeyLength 48; ReadKey 49; ReadKey 50; ReadValueLength 51; ReadValue 52]
  ∧ result_map product (parseProductData ascii_toString overrun_product)
    = Ok {[ "ab"%string := "c"%string ]}.
Proof. by vm_compute. Qed.

(** C7, as the code has it. A buffer too short for one of the integer
    fields makes the decoder throw the reader's [OutOfRange] exception: below 20
    bytes for a mapping account, below 16 for a product account, below 176
    for a price account. From those lengths on, the mapping and product
    decoders return a record on every buffer: key spans and metadata that
    reach past the end are cut to the bytes there are. *)
Theorem C7_short_buffers js_pow toString (data : Buffer) :
  (len data < 20 → parseMappingData data = Throw OutOfRange)
  ∧ (20 ≤ len data → ∃ r, parseMappingData data = Ok r)
  ∧ (len data < 16 → parseProductData toString data = Throw OutOfRange)
  ∧ (16 ≤ len data → ∃ r, parseProductData toString data = Ok r)
  ∧ (len data < 176 → parsePriceData js_pow data = Throw OutOfRange).
Proof.
  split; [|split; [|split; [|split]]].
  - apply parseMappingData_outside.
  - intros Hl. rewrite parseMappingData_inside by done. by eexists.
  - apply parseProductData_outside.
  - intros Hl. destruct (parseProductData_inside toString data Hl) as (st & _ & ->).
    by eexists.
  - apply parsePriceData_outside.
Qed.

Lemma C7_short_buffers_witness :
  parseMappingData (take 19 sample_mapping) = Throw OutOfRange
  ∧ (∃ r, parseProductData ascii_toString short_product = Ok r)
  ∧ parsePriceData naive_pow (take 175 sentinel_price) = Throw OutOfRange.
Proof.
  split; [|split].
  - apply (C7_short_buffers naive_pow ascii_toString (take 19 sample_mapping)).
    by vm_compute.
  - apply (C7_short_buffers naive_pow ascii_toString short_product). by vm_compute.
  - apply (C7_short_buffers naive_pow ascii_toString (take 175 sentinel_price)).
    by vm_compute.
Defined.

(** C7 fails as stated: a product account of 16 bytes has no room for the
    price-account key at bytes 16-47, yet it decodes to a record whose key
    is built from no bytes; a mapping account of 20 bytes that declares
    two products decodes to two such keys. *)
Lemma C7_counterexample :
  len short_product = 16
  ∧ parseProductData ascii_toString short_product
    = Ok (mkProductData (mkBase Magic 1 2 0) (mkPublicKey []) ∅)
  ∧ len short_mapping = 20
  ∧ parseMappingData short_mapping
    = Ok (mkMappingData (mkBase Magic 1 1 20) (Some (mkPublicKey []))
            [mkPublicKey []; mkPublicKey []]).
Proof. by vm_compute. Qed.

(** C8, as the code has it. The decoders compare magic and version with
    nothing: each returns the two fields as read, and two buffers that
    differ only in their first eight bytes decode alike, to the same
    exception or to records equal in everything but magic and version. *)
Theorem C8_header_unchecked js_pow toString (d d' : Buffer) :
  same_after_header d d' →
  (result_map forget_mapping (parseMappingData d)
   = result_map forget_mapping (parseMappingData d'))
  ∧ (result_map forget_product (parseProductData toString d)
     = result_map forget_product (parseProductData toString d'))
  ∧ (result_map forget_price (parsePriceData js_pow d)
     = result_map forget_price (parsePriceData js_pow d'))
  ∧ (∀ r, parseMappingData d = Ok r →
       magic (mapping_base r) = le_value (slice d 0 4)
       ∧ version (mapping_base r) = le_value (slice d 4 8))
  ∧ (∀ r, parseProductData toString d = Ok r →
       magic (product_base r) = le_value (slice d 0 4)
       ∧ version (product_base r) = le_value (slice d 4 8))
  ∧ (∀ r, parsePriceData js_pow d = Ok r →
       magic (price_base r) = le_value (slice d 0 4)
       ∧ version (price_base r) = le_value (slice d 4 8)).
Proof.
  intros Hsame. split; [|split; [|split; [|split; [|split]]]].
  - by apply same_parseMappingData.
  - by apply same_parseProductData.
  - by apply same_parsePriceData.
  - intros r. destruct (Z.lt_ge_cases (len d) 20);
      [by rewrite parseMappingData_outside|].
    rewrite parseMappingData_inside by done. by intros [= <-].
  - intros r. destruct (Z.lt_ge_cases (len d) 16) as [|Hl];
      [by rewrite parseProductData_outside|].
    destruct (parseProductData_inside toString d Hl) as (st & _ & ->).
    by intros [= <-].
  - intros r. destruct (Z.lt_ge_cases (len d) 176);
      [by rewrite parsePriceData_outside|].
    rewrite parsePriceData_inside by done.
    destruct (components_loop _ _ _ _ _ _ _); run; try done. by intros [= <-].
Qed.

Lemma C8_header_unchecked_witness :
  result_map forget_price (parsePriceData naive_pow blank_price)
  = result_map forget_price (parsePriceData naive_pow relabelled_price).
Proof.
  apply (C8_header_unchecked naive_pow ascii_toString blank_price relabelled_price).
  split; reflexivity.
Defined.

(** C8 fails as stated: a price account whose magic and version fields are
    zero decodes to a record, and so does one whose fields hold
    0xffffffff. *)
Lemma C8_counterexample :
  result_map (λ r, (magic (price_base r), version (price_base r)))
    (parsePriceData naive_pow blank_price) = Ok (0, 0)
  ∧ result_map (λ r, (magic (price_base r), version (price_base r)))
      (parsePriceData naive_pow relabelled_price) = Ok (0xffffffff, 0xffffffff)
  ∧ 0 ≠ Magic ∧ 0 ≠ Version ∧ 0xffffffff ≠ Magic ∧ 0xffffffff ≠ Version.
Proof. by vm_compute. Qed.

(** C9, as the code has it. For every 32-byte Price-Info block the decoder
    succeeds and returns, as status and as corporate action, the unsigned
    32-bit integers of bytes 16-19 and 20-23 unchanged, whatever their
    value: a number below 2^32, looked up in no table. *)
Theorem C9_raw_ordinals js_pow (data : Buffer) (exponent : Z) :
  length data = 32%nat →
  ∃ r, parsePriceInfo js_pow data exponent = Ok r
    ∧ status r = le_value (take 4 (drop 16 data))
    ∧ corporateAction r = le_value (take 4 (drop 20 data))
    ∧ 0 ≤ status r < 2 ^ 32
    ∧ 0 ≤ corporateAction r < 2 ^ 32.
Proof.
  intros Hlen. rewrite parsePriceInfo_block by done. eexists. split; [done|].
  cbn [status corporateAction].
  pose proof (le_value_slice_range data 16 4 ltac:(lia) ltac:(lia)) as Hs.
  pose proof (le_value_slice_range data 20 4 ltac:(lia) ltac:(lia)) as Hc.
  change (slice data 16 (16 + 4)) with (take 4 (drop 16 data)) in Hs.
  change (slice data 20 (20 + 4)) with (take 4 (drop 20 data)) in Hc.
  change (slice data 16 20) with (take 4 (drop 16 data)).
  change (slice data 20 24) with (take 4 (drop 20 data)).
  repeat split; try done; lia.
Qed.

Lemma C9_raw_ordinals_witness :
  ∃ r, parsePriceInfo naive_pow odd_block 0 = Ok r ∧ status r = 7 ∧ corporateAction r = 3.
Proof.
  destruct (C9_raw_ordinals naive_pow odd_block 0 eq_refl) as (r & Hr & Hs & Hc & _).
  exists r. split; [exact Hr|]. split; [exact Hs|exact Hc].
Defined.

(** C9 fails as stated: a block with status ordinal 7 and corporate-action
    ordinal 3 decodes to those very numbers; neither is the ordinal of
    'Unknown', and the tables have no entry for them. *)
Lemma C9_counterexample :
  result_map (λ r, (status r, corporateAction r)) (parsePriceInfo naive_pow odd_block 0)
    = Ok (7, 3)
  ∧ PriceStatus !! Z.to_nat 7 = None
  ∧ CorpAction !! Z.to_nat 3 = None
  ∧ PriceStatus !! Z.to_nat 0 = Some "Unknown"%string.
Proof. by vm_compute. Qed.

(** C10. When the declared used-size exceeds the buffer length the product
    decoder still returns a record. A key-length read at or beyond the end
    of the buffer moves [idx] by one and inserts nothing, and the metadata
    of the record is the metadata the loop gives when it is run up to the
    end of the buffer instead of the used-size. *)
Theorem C10_size_beyond_buffer toString (data : Buffer) :
  16 ≤ len data →
  len data < le_value (slice data 12 16) →
  ∃ r st, parseProductData toString data = Ok r
    ∧ size (product_base r) = le_value (slice data 12 16)
    ∧ product_metadata toString data (len data) = Ok st
    ∧ product r = st.1.2
    ∧ ∀ i p, len data ≤ i →
        product_step toString data i p = (Num (i + 1), p, [ReadKeyLength i]).
Proof.
  intros Hl Hsize.
  destruct (parseProductData_inside toString data Hl) as (st & Hst & ->).
  unfold product_metadata in *.
  destruct (product_loop_bound toString data (le_value (slice data 12 16)) _ _ _ _ st
              ltac:(lia) Hst) as (st' & Hst' & Heq).
  destruct (product_loop_total toString data (len data) (Z.to_nat (len data))
              (Num 48) ∅ []) as [st'' Hst'']; [lia|].
  pose proof (product_loop_fuel toString data (len data) (Z.to_nat (len data))
                (Z.to_nat (le_value (slice data 12 16))) (Num 48) ∅ [] st''
                ltac:(lia) Hst'') as Hmore.
  rewrite Hmore in Hst'. injection Hst' as ->.
  eexists _, st'. cbn [product_base size product]. repeat split; try done.
  intros i p Hi. apply product_step_skip. left. by apply byte_at_outside.
Qed.

Lemma C10_size_beyond_buffer_witness :
  ∃ r, parseProductData ascii_toString truncated_product = Ok r
    ∧ result_map (λ st, st.1.2) (product_metadata ascii_toString truncated_product 51)
      = Ok (product r).
Proof.
  destruct (C10_size_beyond_buffer ascii_toString truncated_product
              ltac:(by vm_compute) ltac:(by vm_compute))
    as (r & st & Hr & _ & Hst & Hp & _).
  exists r. split; [exact Hr|].
  change (len truncated_product) with 51 in Hst. rewrite Hst, Hp. reflexivity.
Defined.

(** * Further properties of the decoders *)

Lemma alloc_as_Forall (data : Buffer) :
  data = alloc 32 ↔ length data = 32%nat ∧ Forall (λ b, b = x00) data.
Proof.
  unfold alloc. split.
  - intros ->. split; [by rewrite length_replicate|by apply Forall_replicate].
  - intros [Hl H]. symmetry. apply replicate_as_Forall. split; [done|].
    eapply Forall_impl; [apply H|]. by intros ? ->.
Qed.

Lemma slice_32_length (data : Buffer) (o : Z) :
  0 ≤ o → (length (slice data o (o + 32)) = 32%nat ↔ o + 32 ≤ len data).
Proof.
  intros Ho. pose proof (len_slice data o (o + 32) Ho) as H. unfold len in *. lia.
Qed.


Lemma be_value_zero (bs : Buffer) : Forall (λ b, b = x00) bs → be_value bs = 0.
Proof.
  unfold be_value. intros H. apply Forall_reverse in H.
  induction H as [|b rest -> _ IH]; [done|]. cbn [le_value]. rewrite IH. done.
Qed.

(** X1. [PKorNull] on an input of at most 32 bytes, as a slice is: the
    result is null exactly when the input has all 32 bytes and they are
    zero. A shorter input, all zero or not, gives a key built from it; when
    it is all zero that key is the zero key, the key of 32 zero bytes. *)
Theorem X1_PKorNull_short_input (data : Buffer) :
  (length data ≤ 32)%nat →
  (PKorNull data = None ↔ length data = 32%nat ∧ Forall (λ b, b = x00) data)
  ∧ ((length data < 32)%nat →
     PKorNull data = Some (mkPublicKey data)
     ∧ (Forall (λ b, b = x00) data →
        key_value (mkPublicKey data) = 0
        ∧ key_value (mkPublicKey data) = key_value (mkPublicKey (alloc 32)))).
Proof.
  intros _. split.
  - by rewrite PKorNull_None, alloc_as_Forall.
  - intros Hl. split.
    + apply PKorNull_Some. split; [|done].
      rewrite alloc_as_Forall. intros [? _]. lia.
    + intros Hz. unfold key_value. cbn [key_bytes].
      rewrite be_value_zero by done. split; [done|].
      symmetry. apply be_value_zero. by apply Forall_replicate.
Qed.

Lemma X1_PKorNull_short_input_witness :
  PKorNull (replicate 31 x00) = Some (mkPublicKey (replicate 31 x00))
  ∧ key_value (mkPublicKey (replicate 31 x00)) = 0.
Proof.
  destruct (X1_PKorNull_short_input (replicate 31 x00) ltac:(cbn; lia)) as [_ H].
  destruct (H ltac:(cbn; lia)) as [Hk Hz]. split; [exact Hk|].
  apply Hz. by apply Forall_replicate.
Defined.

(** X2. The next-mapping link of a decoded mapping account is null exactly
    when the buffer holds all of bytes 24-55 and they are zero. A buffer
    that ends before byte 56 never gives a null link: the link is a key
    built from the bytes there are. *)
Theorem X2_next_mapping_link (data : Buffer) (r : MappingData) :
  parseMappingData data = Ok r →
  (nextMappingAccount r = None
   ↔ 56 ≤ len data ∧ Forall (λ b, b = x00) (slice data 24 56))
  ∧ (len data < 56 → nextMappingAccount r = Some (mkPublicKey (slice data 24 56))).
Proof.
  destruct (Z.lt_ge_cases (len data) 20); [by rewrite parseMappingData_outside|].
  rewrite parseMappingData_inside by done. intros [= <-]. cbn [nextMappingAccount].
  pose proof (slice_32_length data 24 ltac:(lia)) as Hl.
  change (24 + 32) with 56 in Hl. split.
  - rewrite PKorNull_None, alloc_as_Forall, Hl. done.
  - intros Hs. apply PKorNull_Some. split; [|done].
    rewrite alloc_as_Forall, Hl. lia.
Qed.

Lemma X2_next_mapping_link_witness :
  ∃ r, parseMappingData short_mapping = Ok r
    ∧ nextMappingAccount r = Some (mkPublicKey []).
Proof.
  eexists. split; [reflexivity|].
  apply (X2_next_mapping_link short_mapping _ eq_refl). by vm_compute.
Defined.



Section More_price.
Variable js_pow : PrimFloat.float -> PrimFloat.float -> PrimFloat.float.

(** The closed form of [parsePriceInfo] on a buffer of 32 bytes or more. *)
Lemma parsePriceInfo_inside (data : Buffer) (exponent : Z) :
  32 ≤ len data →
  parsePriceInfo js_pow data exponent =
    Ok (mkPrice
          (to_int64 (le_value (slice data 0 8)))
          (PrimFloat.mul (Number (to_int64 (le_value (slice data 0 8))))
             (js_pow (Number 10) (Number exponent)))
          (le_value (slice data 8 16))
          (PrimFloat.mul (Number (le_value (slice data 8 16)))
             (js_pow (Number 10) (Number exponent)))
          (le_value (slice data 16 20))
          (le_value (slice data 20 24))
          (le_value (slice data 24 32))).
Proof.
  intros Hl. unfold parsePriceInfo.
  rewrite readBigInt64LE_inside by lia. run.
  rewrite !readBigUInt64LE_inside by lia. run.
  rewrite !readUInt32LE_inside by lia. done.
Qed.

End More_price.

(** X4. [parsePriceInfo] on a buffer of any length: it returns a record
    exactly when the buffer has at least 32 bytes, and then the record is
    that of the first 32 bytes alone; on a shorter buffer it throws. *)
Theorem X4_price_info_needs_32_bytes js_pow (data : Buffer) (exponent : Z) :
  (32 ≤ len data →
   ∃ p, parsePriceInfo js_pow data exponent = Ok p
     ∧ parsePriceInfo js_pow (take 32 data) exponent = Ok p)
  ∧ (len data < 32 → parsePriceInfo js_pow data exponent = Throw OutOfRange).
Proof.
  split; [|apply parsePriceInfo_short].
  intros Hl. eexists. split; [by apply parsePriceInfo_inside|].
  rewrite parsePriceInfo_inside
    by (unfold len in *; rewrite length_take; lia).
  assert (∀ s e, 0 ≤ s → e ≤ 32 → slice (take 32 data) s e = slice data s e) as Hs.
  { intros s e Hs He. symmetry. apply (prefix_slice data (take 32 data) 32); [|done..].
    by rewrite take_take. }
  by rewrite !Hs by lia.
Qed.

Lemma X4_price_info_needs_32_bytes_witness :
  (∃ p, parsePriceInfo naive_pow (sample_block ++ [x01; x02]) (-2) = Ok p
     ∧ parsePriceInfo naive_pow sample_block (-2) = Ok p)
  ∧ parsePriceInfo naive_pow (take 31 sample_block) (-2) = Throw OutOfRange.
Proof.
  split.
  - apply (X4_price_info_needs_32_bytes naive_pow (sample_block ++ [x01; x02]) (-2)).
    by vm_compute.
  - apply (X4_price_info_needs_32_bytes naive_pow (take 31 sample_block) (-2)).
    by vm_compute.
Defined.

Lemma to_int32_signed (u : Z) :
  0 ≤ u < 2 ^ 32 → - 2 ^ 31 ≤ to_int32 u < 2 ^ 31 ∧ to_int32 u mod 2 ^ 32 = u.
Proof.
  intros Hu. unfold to_int32. destruct (Z.ltb_spec u (2 ^ 31)).
  - split; [lia|]. apply Z.mod_small. lia.
  - split; [lia|]. symmetry. apply (Z.mod_unique_pos _ _ (-1)); lia.
Qed.

(** A record comes only from a buffer of 176 bytes or more, by the closed
    form of the fixed part. *)
Lemma parsePriceData_Ok js_pow (data : Buffer) (r : PriceData) :
  parsePriceData js_pow data = Ok r →
  176 ≤ len data
  ∧ ∃ l, components_loop js_pow data (to_int32 (le_value (slice data 20 24)))
           (length data) 176 [] true = Ok l
      ∧ r = price_fixed js_pow data l.
Proof.
  destruct (Z.lt_ge_cases (len data) 176) as [Hs|Hs];
    [by rewrite parsePriceData_outside|].
  rewrite parsePriceData_inside by done.
  destruct (components_loop _ _ _ _ _ _ _) as [l| |]; run; try done.
  intros [= <-]. split; [done|]. by exists l.
Qed.

(** X5. The component list of a decoded price account fits the buffer:
    with n components, byte 176 + 96 n is at most the length of the buffer,
    so n is at most (length - 176) / 96, and the publisher key of every
    component holds exactly 32 bytes. *)
Theorem X5_component_count_bound js_pow (data : Buffer) (r : PriceData) :
  parsePriceData js_pow data = Ok r →
  176 + 96 * Z.of_nat (length (priceComponents r)) ≤ len data
  ∧ Z.of_nat (length (priceComponents r)) ≤ (len data - 176) / 96
  ∧ ∀ c, c ∈ priceComponents r →
      ∃ k, publisher c = Some k ∧ length (key_bytes k) = 32%nat.
Proof.
  intros (Hlen & l & Hl & ->)%parsePriceData_Ok. cbn [priceComponents price_fixed].
  apply components_loop_spec in Hl as (rest & -> & Hcomp & _); [|lia].
  rewrite app_nil_l.
  assert (176 + 96 * Z.of_nat (length rest) ≤ len data) as Hbound.
  { destruct (nil_or_length_pos rest) as [->|Hpos]; [cbn; lia|].
    destruct (lookup_lt_is_Some_2 rest (length rest - 1)) as [c Hc]; [lia|].
    apply Hcomp in Hc as (Hroom & _). lia. }
  split; [done|]. split.
  - apply Z.div_le_lower_bound; lia.
  - intros c (i & Hc)%list_elem_of_lookup.
    apply Hcomp in Hc as (Hroom & _ & Hp & _).
    eexists. split; [apply Hp|]. cbn [key_bytes].
    apply slice_32_length; lia.
Qed.

Lemma X5_component_count_bound_witness :
  ∃ r, parsePriceData naive_pow sentinel_price = Ok r
    ∧ Z.of_nat (length (priceComponents r)) ≤ (len sentinel_price - 176) / 96.
Proof.
  eexists. split; [by vm_compute|].
  apply (X5_component_count_bound naive_pow sentinel_price _ eq_refl).
Defined.

(** X6. A price account whose component region runs into a partial
    triple is rejected: when the first n publisher spans are not the
    sentinel and the buffer ends inside triple n, after its first byte and
    before its last, the decoder throws. A buffer with 1 to 31 bytes after
    offset 176 is always rejected, whatever those bytes are. *)
Theorem X6_partial_triple_throws js_pow (data : Buffer) (n : nat) :
  176 + 96 * Z.of_nat n < len data < 176 + 96 * Z.of_nat n + 96 →
  (∀ i : nat, (i ≤ n)%nat →
     slice data (176 + 96 * Z.of_nat i) (176 + 96 * Z.of_nat i + 32) ≠ alloc 32) →
  parsePriceData js_pow data = Throw OutOfRange.
Proof.
  intros Hlen Hpub.
  destruct (parsePriceData js_pow data) as [r|[]|] eqn:Hr; [|done|].
  - exfalso. apply parsePriceData_Ok in Hr as (_ & l & Hl & _).
    apply components_loop_spec in Hl as (rest & -> & Hcomp & Hend); [|lia].
    destruct (Nat.le_gt_cases (length rest) n) as [Hle|Hgt].
    + destruct Hend as [Hend|Hend]; [lia|]. by apply (Hpub (length rest)).
    + destruct (lookup_lt_is_Some_2 rest n) as [c Hc]; [lia|].
      apply Hcomp in Hc as (Hroom & _). lia.
  - exfalso. revert Hr. rewrite parsePriceData_inside by lia.
    pose proof (components_loop_enough_fuel js_pow data
                  (to_int32 (le_value (slice data 20 24))) (length data) 176 [] true) as Hf.
    destruct (components_loop _ _ _ _ _ _ _); run; try done.
    intros _. apply Hf; [unfold len; lia|done].
Qed.

Lemma X6_partial_triple_throws_witness :
  parsePriceData naive_pow (take 177 sentinel_price) = Throw OutOfRange.
Proof.
  apply (X6_partial_triple_throws naive_pow (take 177 sentinel_price) 0).
  - by vm_compute.
  - intros i Hi. assert (i = 0%nat) as -> by lia. by vm_compute.
Defined.

(** X7. The fixed part of a decoded price account. A record comes only
    from a buffer of at least 176 bytes; its exponent is the
    two's-complement reading of bytes 20-23; price type, declared count and
    the two slots are the unsigned little-endian integers of their spans;
    the product and updater keys hold bytes 48-79 and 112-143; the next
    link is null exactly when bytes 80-111 are zero; and the aggregate
    price is the Price-Info decoding of bytes 144-175 with the record's own
    exponent. *)
Theorem X7_price_fixed_fields js_pow (data : Buffer) (r : PriceData) :
  parsePriceData js_pow data = Ok r →
  176 ≤ len data
  ∧ - 2 ^ 31 ≤ exponent r < 2 ^ 31
  ∧ exponent r mod 2 ^ 32 = le_value (take 4 (drop 20 data))
  ∧ priceType r = le_value (take 4 (drop 16 data))
  ∧ numComponentPrices r = le_value (take 4 (drop 24 data))
  ∧ currentSlot r = le_value (take 8 (drop 32 data))
  ∧ validSlot r = le_value (take 8 (drop 40 data))
  ∧ productAccountKey r = mkPublicKey (take 32 (drop 48 data))
  ∧ aggregatePriceUpdaterAccountKey r = mkPublicKey (take 32 (drop 112 data))
  ∧ (nextPriceAccountKey r = None ↔ Forall (λ b, b = x00) (take 32 (drop 80 data)))
  ∧ parsePriceInfo js_pow (take 32 (drop 144 data)) (exponent r) = Ok (price_info r).
Proof.
  intros (Hlen & l & _ & ->)%parsePriceData_Ok. split; [done|].
  cbn [price_fixed exponent priceType numComponentPrices currentSlot validSlot
       productAccountKey aggregatePriceUpdaterAccountKey nextPriceAccountKey
       price_info].
  pose proof (le_value_slice_range data 20 4 ltac:(lia) ltac:(lia)) as He.
  change (20 + 4) with 24 in He.
  destruct (to_int32_signed (le_value (slice data 20 24))) as [Hr Hm]; [done|].
  change (take 4 (drop 20 data)) with (slice data 20 24).
  change (take 4 (drop 16 data)) with (slice data 16 20).
  change (take 4 (drop 24 data)) with (slice data 24 28).
  change (take 8 (drop 32 data)) with (slice data 32 40).
  change (take 8 (drop 40 data)) with (slice data 40 48).
  change (take 32 (drop 48 data)) with (slice data 48 80).
  change (take 32 (drop 112 data)) with (slice data 112 144).
  change (take 32 (drop 80 data)) with (slice data 80 112).
  change (take 32 (drop 144 data)) with (slice data 144 176).
  pose proof (slice_32_length data 80 ltac:(lia)) as Hnext.
  pose proof (slice_32_length data 144 ltac:(lia)) as Hagg.
  change (80 + 32) with 112 in Hnext. change (144 + 32) with 176 in Hagg.
  rewrite PKorNull_None, alloc_as_Forall.
  repeat split; try done; try lia; try (by intros [_ ?]); try (apply Hnext; lia).
  apply parsePriceInfo_block. by apply Hagg.
Qed.

Lemma X7_price_fixed_fields_witness :
  ∃ r, parsePriceData naive_pow sentinel_price = Ok r ∧ exponent r = -2
    ∧ nextPriceAccountKey r ≠ None.
Proof.
  eexists. split; [by vm_compute|].
  destruct (X7_price_fixed_fields naive_pow sentinel_price _ eq_refl)
    as (_ & _ & _ & _ & _ & _ & _ & _ & _ & Hnext & _).
  split; [reflexivity|]. intros Hn. apply Hnext in Hn.
  apply Forall_inv in Hn. discriminate Hn.
Defined.

(** * Product metadata laid out item by item *)

Lemma byte_val_length_byte (n : nat) : (n < 256)%nat → byte_val (length_byte n) = Z.of_nat n.
Proof.
  intros Hn. unfold length_byte, byte_val.
  destruct (Byte.of_N (N.of_nat n)) as [b|] eqn:Hb.
  - apply Byte.to_of_N in Hb. cbn. lia.
  - apply Byte.of_N_None_iff in Hb. lia.
Qed.

Lemma slice_app_middle (pre mid post : Buffer) :
  slice (pre ++ mid ++ post) (len pre) (len pre + len mid) = mid.
Proof.
  unfold slice, len.
  replace (Z.to_nat (Z.of_nat (length pre) + Z.of_nat (length mid) - Z.of_nat (length pre)))
    with (length mid) by lia.
  rewrite Nat2Z.id, drop_app_length. apply take_app_length.
Qed.

Lemma byte_at_app_middle (pre post : Buffer) (x : byte) :
  byte_at (pre ++ x :: post) (len pre) = Some x.
Proof.
  rewrite byte_at_lookup by apply len_nonneg. unfold len. rewrite Nat2Z.id.
  apply list_lookup_middle. done.
Qed.

Lemma len_cons (x : byte) (l : Buffer) : len (x :: l) = 1 + len l.
Proof. unfold len. cbn [length]. lia. Qed.

Lemma len_app (a b : Buffer) : len (a ++ b) = len a + len b.
Proof. unfold len. rewrite length_app. lia. Qed.

Lemma len_encode_item_pos (item : metadata_item) : 0 < len (encode_item item).
Proof.
  destruct item; cbn [encode_item]; rewrite len_cons; pose proof (len_nonneg []);
    [cbn; lia|]. pose proof (len_nonneg (key ++ length_byte (length value) :: value)). lia.
Qed.

Section Encoded.
Variable toString : Buffer -> string.

(** The turn of the loop that enters at an encoded item. *)
Lemma product_step_item (pre rest : Buffer) (item : metadata_item)
    (product : gmap string string) :
  item_fits toString item →
  (product_step toString (pre ++ encode_item item ++ rest) (len pre) product).1
  = (Num (len pre + len (encode_item item)), insert_items toString [item] product).
Proof.
  intros Hfit. destruct item as [|k v]; cbn [encode_item insert_items foldl].
  - rewrite product_step_skip.
    + done.
    + right. exists x00. split; [|done]. apply byte_at_app_middle.
  - destruct Hfit as (Hk & Hv & Hname).
    set (kl := length_byte (length k)). set (vl := length_byte (length v)).
    assert (byte_val kl = len k) as Hkl by (apply byte_val_length_byte; lia).
    assert (byte_val vl = len v) as Hvl by (apply byte_val_length_byte; lia).
    set (data := pre ++ (kl :: k ++ vl :: v) ++ rest).
    assert (data = pre ++ kl :: (k ++ vl :: v ++ rest)) as E1
      by (subst data; cbn [app]; by rewrite <- !app_assoc).
    assert (data = (pre ++ [kl]) ++ k ++ (vl :: v ++ rest)) as E2
      by (rewrite E1; by rewrite <- !app_assoc).
    assert (data = (pre ++ [kl] ++ k) ++ vl :: (v ++ rest)) as E3
      by (rewrite E1; by rewrite <- !app_assoc).
    assert (data = (pre ++ [kl] ++ k ++ [vl]) ++ v ++ rest) as E4
      by (rewrite E1; by rewrite <- !app_assoc).
    assert (len (pre ++ [kl]) = len pre + 1) as L2
      by (rewrite ?len_app, ?len_cons; change (len []) with 0; lia).
    assert (len (pre ++ [kl] ++ k) = len pre + 1 + len k) as L3
      by (rewrite ?len_app, ?len_cons; change (len []) with 0; lia).
    assert (len (pre ++ [kl] ++ k ++ [vl]) = len pre + 1 + len k + 1) as L4
      by (rewrite ?len_app, ?len_cons; change (len []) with 0; lia).
    rewrite (product_step_entry toString data (len pre) product kl vl).
    + rewrite Hkl, Hvl.
      assert (slice data (len pre + 1) (len pre + 1 + len k) = k) as ->.
      { rewrite E2 at 1. rewrite <- L2. by rewrite slice_app_middle. }
      assert (slice data (len pre + 1 + len k + 1) (len pre + 1 + len k + 1 + len v) = v)
        as ->.
      { rewrite E4 at 1. rewrite <- L4. by rewrite slice_app_middle. }
      rewrite set_property_stored by done. f_equal.
      f_equal. rewrite len_cons, len_app, len_cons. lia.
    + rewrite E1. apply byte_at_app_middle.
    + rewrite Hkl. unfold len. lia.
    + rewrite Hkl, E3, <- L3. apply byte_at_app_middle.
Qed.

(** The loop walks a run of encoded items in as many turns. *)
Lemma product_loop_items (bound : Z) (items : list metadata_item) :
  ∀ (pre post : Buffer) (product : gmap string string) (reads : list access),
    Forall (item_fits toString) items →
    len pre + len (encode_metadata items) ≤ bound →
    ∃ rs, ∀ fuel,
      product_loop toString (pre ++ encode_metadata items ++ post) bound
        (length items + fuel) (Num (len pre)) product reads
      = product_loop toString (pre ++ encode_metadata items ++ post) bound
          fuel (Num (len pre + len (encode_metadata items)))
          (insert_items toString items product) (reads ++ rs).
Proof.
  induction items as [|item items IH]; intros pre post product reads Hfit Hb.
  - exists []. intros fuel. cbn. by rewrite Z.add_0_r, app_nil_r.
  - apply Forall_cons in Hfit as [Hitem Hfit].
    assert (encode_metadata (item :: items) = encode_item item ++ encode_metadata items)
      as Henc by done.
    rewrite Henc in *. rewrite len_app in Hb.
    pose proof (len_encode_item_pos item) as Hpos.
    pose proof (len_nonneg (encode_metadata items)) as Hnn.
    pose proof (product_step_item pre (encode_metadata items ++ post) item product Hitem)
      as Hstep.
    rewrite (app_assoc (encode_item item)) in Hstep.
    destruct (product_step toString (pre ++ (encode_item item ++ encode_metadata items) ++ post)
                (len pre) product) as [[idx' product'] r] eqn:Hs.
    cbn [fst] in Hstep. injection Hstep as -> ->.
    destruct (IH (pre ++ encode_item item) post (insert_items toString [item] product)
                (reads ++ r) Hfit) as [rs Hrs].
    { rewrite len_app. lia. }
    exists (r ++ rs). intros fuel. cbn [length Nat.add].
    assert (len pre < bound) as Hlt by lia.
    rewrite product_loop_unfold by exact Hlt. rewrite Hs.
    rewrite <- !app_assoc in Hrs. rewrite <- !app_assoc.
    rewrite len_app in Hrs. etrans; [apply Hrs|].
    rewrite len_app, Z.add_assoc. done.
Qed.

End Encoded.

(** X8. A product account whose metadata region, from offset 48 to the
    declared used-size, is a run of items (a zero byte, or a non-empty key
    that does not read [__proto__] and a value, each behind its length
    byte) decodes to exactly the entries of that run, written in order, so
    that a later entry with the key of an earlier one replaces it; the
    zero bytes give nothing, and what follows the used-size is not
    read. *)
Theorem X8_metadata_round_trip toString (head tail : Buffer)
    (items : list metadata_item) :
  length head = 48%nat →
  Forall (item_fits toString) items →
  le_value (slice head 12 16) = 48 + len (encode_metadata items) →
  ∃ r, parseProductData toString (head ++ encode_metadata items ++ tail) = Ok r
    ∧ product r = insert_items toString items ∅
    ∧ priceAccountKey r = mkPublicKey (drop 16 head).
Proof.
  intros Hhead Hfit Hsize.
  set (data := head ++ encode_metadata items ++ tail).
  assert (len head = 48) as Hl by (unfold len; lia).
  assert (48 ≤ len data) as Hdata.
  { subst data. rewrite len_app. pose proof (len_nonneg (encode_metadata items ++ tail)). lia. }
  assert (∀ s e, 0 ≤ s → e ≤ 48 → slice data s e = slice head s e) as Hslice.
  { intros s e Hs He. symmetry. apply (prefix_slice head data 48); [|done..].
    subst data. rewrite take_app_length' by lia. rewrite take_ge; [done|lia]. }
  destruct (parseProductData_inside toString data ltac:(lia)) as (st & Hst & ->).
  eexists. split; [done|]. cbn [product priceAccountKey].
  rewrite !Hslice by lia. split.
  - rewrite Hslice, Hsize in Hst by lia. unfold product_metadata in Hst.
    destruct (product_loop_items toString (48 + len (encode_metadata items)) items
                head tail ∅ [] Hfit ltac:(lia)) as [rs Hrs].
    specialize (Hrs 0%nat). rewrite Hl in Hrs. fold data in Hrs.
    assert (product_loop toString data (48 + len (encode_metadata items)) 0
              (Num (48 + len (encode_metadata items)))
              (insert_items toString items ∅) ([] ++ rs)
            = Ok (Num (48 + len (encode_metadata items)),
                  insert_items toString items ∅, [] ++ rs)) as Hend.
    { cbn [product_loop]. by destruct (Z.ltb_spec (48 + len (encode_metadata items))
                                         (48 + len (encode_metadata items))); [lia|]. }
    rewrite Hend in Hrs.
    eapply (product_loop_fuel toString data _ _
              (Z.to_nat (48 + len (encode_metadata items)))) in Hrs.
    + rewrite Hrs in Hst. by injection Hst as <-.
    + assert (Z.of_nat (length items) ≤ len (encode_metadata items)); [|lia].
      clear. induction items as [|item items IH]; [done|].
      change (encode_metadata (item :: items))
        with (encode_item item ++ encode_metadata items).
      rewrite len_app. pose proof (len_encode_item_pos item). cbn [length]. lia.
  - f_equal. unfold slice. cbn. rewrite take_ge; [done|]. rewrite length_drop. lia.
Qed.

Lemma X8_metadata_round_trip_witness :
  ∃ r, parseProductData ascii_toString
         ((sample_header x02 x3b ++ replicate 32 x09)
          ++ encode_metadata [Entry [x61; x62] [x63]; Padding; Entry [x61; x62] [x64]]
          ++ [xff; xff])
       = Ok r
    ∧ product r = {[ "ab"%string := "d"%string ]}.
Proof.
  destruct (X8_metadata_round_trip ascii_toString
              (sample_header x02 x3b ++ replicate 32 x09) [xff; xff]
              [Entry [x61; x62] [x63]; Padding; Entry [x61; x62] [x64]])
    as (r & Hr & Hp & _).
  - reflexivity.
  - repeat first [apply Forall_nil|apply Forall_cons; split]; cbn;
      repeat split; first [lia|discriminate|exact I].
  - reflexivity.
  - exists r. split; [exact Hr|]. rewrite Hp. by vm_compute.
Defined.

(** X9. A metadata entry cut off by the end of the buffer: when a
    key-length byte k > 0 lies in the buffer and the value-length byte
    that should follow the key does not, the loop records the key, made of
    the bytes left in the buffer and not reading [__proto__], with the
    empty value, and stops there with [idx] = [NaN], whatever the
    used-size. *)
Theorem X9_truncated_entry toString (data : Buffer) (idx bound : Z) (kl : byte)
    (fuel : nat) (product : gmap string string) (reads : list access) :
  0 ≤ idx < bound →
  byte_at data idx = Some kl →
  byte_val kl ≠ 0 →
  len data ≤ idx + 1 + byte_val kl →
  toString (drop (Z.to_nat (idx + 1)) data) ≠ "__proto__"%string →
  ∃ rs, product_loop toString data bound (S fuel) (Num idx) product reads
        = Ok (NaN,
              <[toString (drop (Z.to_nat (idx + 1)) data) := toString []]> product,
              rs).
Proof.
  intros Hidx Hk Hk0 Hend Hname. rewrite product_loop_unfold by lia.
  unfold product_step. rewrite Hk.
  destruct (Z.eqb_spec (byte_val kl) 0) as [|_]; [done|]. cbv zeta.
  rewrite (byte_at_outside data (idx + 1 + byte_val kl)) by done.
  assert (slice data (idx + 1) (idx + 1 + byte_val kl) = drop (Z.to_nat (idx + 1)) data)
    as ->.
  { unfold slice. apply take_ge. rewrite length_drop. unfold len in *. lia. }
  rewrite set_property_stored by done.
  destruct fuel; cbn [product_loop]; by eexists.
Qed.

Lemma X9_truncated_entry_witness :
  ∃ rs, product_loop ascii_toString truncated_product 60 1 (Num 48) ∅ []
        = Ok (NaN, {[ "ab"%string := ""%string ]}, rs).
Proof.
  destruct (X9_truncated_entry ascii_toString truncated_product 48 60 x02 0 ∅ [])
    as [rs Hrs]; [lia|reflexivity|discriminate|by vm_compute|discriminate|].
  exists rs. rewrite Hrs. reflexivity.
Defined.

Lemma readBase_header (data : Buffer) (b : Base) :
  readBase data = Ok b → header_of data b.
Proof.
  destruct (Z.lt_ge_cases (len data) 16); [by rewrite readBase_outside|].
  rewrite readBase_inside by done. intros [= <-]. unfold header_of.
  cbn [magic version type size].
  pose proof (le_value_slice_range data 0 4 ltac:(lia) ltac:(lia)).
  pose proof (le_value_slice_range data 4 4 ltac:(lia) ltac:(lia)).
  pose proof (le_value_slice_range data 8 4 ltac:(lia) ltac:(lia)).
  pose proof (le_value_slice_range data 12 4 ltac:(lia) ltac:(lia)).
  change (0 + 4) with 4 in *. change (4 + 4) with 8 in *.
  change (8 + 4) with 12 in *. change (12 + 4) with 16 in *.
  change (take 4 data) with (slice data 0 4).
  change (take 4 (drop 4 data)) with (slice data 4 8).
  change (take 4 (drop 8 data)) with (slice data 8 12).
  change (take 4 (drop 12 data)) with (slice data 12 16).
  repeat split; try done; lia.
Qed.

(** X10. The header of every decoded record, of whichever of the three
    decoders: a record comes only from a buffer of at least 16 bytes, and
    its magic, version, type and size are the unsigned 32-bit
    little-endian integers of bytes 0-3, 4-7, 8-11 and 12-15, each below
    2^32. *)
Theorem X10_header_fields js_pow toString (data : Buffer) :
  (∀ r, parseMappingData data = Ok r → header_of data (mapping_base r))
  ∧ (∀ r, parseProductData toString data = Ok r → header_of data (product_base r))
  ∧ (∀ r, parsePriceData js_pow data = Ok r → header_of data (price_base r)).
Proof.
  split; [|split]; intros r Hr; apply readBase_header.
  - destruct (Z.lt_ge_cases (len data) 20); [by rewrite parseMappingData_outside in Hr|].
    rewrite parseMappingData_inside in Hr by done. injection Hr as <-.
    apply readBase_inside. lia.
  - destruct (Z.lt_ge_cases (len data) 16) as [|Hl];
      [by rewrite parseProductData_outside in Hr|].
    destruct (parseProductData_inside toString data Hl) as (st & _ & Hp).
    rewrite Hp in Hr. injection Hr as <-. by apply readBase_inside.
  - apply parsePriceData_Ok in Hr as (Hl & l & _ & ->). apply readBase_inside. lia.
Qed.

Lemma X10_header_fields_witness :
  ∃ r, parseMappingData sample_mapping = Ok r
    ∧ magic (mapping_base r) = Magic ∧ size (mapping_base r) = 120.
Proof.
  eexists. split; [reflexivity|].
  destruct (X10_header_fields naive_pow ascii_toString sample_mapping) as (H & _ & _).
  destruct (H _ eq_refl) as (_ & Hm & _ & _ & Hs & _).
  split; [exact Hm|exact Hs].
Defined.

(** * Buffers that differ only in a span *)

Section Same_outside.
Variables (a b : nat) (d d' : Buffer).
Hypothesis Hout : same_outside a b d d'.

Lemma outside_len : len d = len d'.
Proof. destruct Hout as [Hl _]. unfold len. by rewrite Hl. Qed.

Lemma outside_slice_before (s e : Z) :
  0 ≤ s → e ≤ Z.of_nat a → slice d s e = slice d' s e.
Proof.
  intros Hs He. destruct Hout as (_ & Ht & _).
  apply (prefix_slice d d' (Z.of_nat a)); [|done..]. by rewrite Nat2Z.id.
Qed.

Lemma outside_slice_after (s e : Z) : Z.of_nat b ≤ s → slice d s e = slice d' s e.
Proof.
  intros Hs. destruct Hout as (_ & _ & Hd). unfold slice. f_equal.
  replace (Z.to_nat s) with (b + (Z.to_nat s - b))%nat by lia.
  by rewrite <- !drop_drop, Hd.
Qed.

Lemma outside_byte_at (i : Z) : Z.of_nat b ≤ i → byte_at d i = byte_at d' i.
Proof.
  intros Hi. destruct Hout as (_ & _ & Hd). rewrite !byte_at_lookup by lia.
  replace (Z.to_nat i) with (b + (Z.to_nat i - b))%nat by lia.
  by rewrite <- !lookup_drop, Hd.
Qed.

Lemma outside_product_step toString (idx : Z) (product : gmap string string) :
  Z.of_nat b ≤ idx →
  product_step toString d idx product = product_step toString d' idx product.
Proof.
  intros Hi. unfold product_step. rewrite outside_byte_at by done.
  destruct (byte_at d' idx) as [kl|]; [|done].
  pose proof (byte_val_range kl).
  rewrite (outside_byte_at (idx + 1 + byte_val kl)) by lia.
  rewrite (outside_slice_after (idx + 1)) by lia.
  destruct (byte_at d' (idx + 1 + byte_val kl)); [|done].
  by rewrite (outside_slice_after (idx + 1 + byte_val kl + 1)) by lia.
Qed.

Lemma outside_product_loop toString (bound : Z) (fuel : nat) (idx : jsnum)
    (product : gmap string string) (reads : list access) :
  match idx with Num i => Z.of_nat b ≤ i | NaN => True end →
  product_loop toString d bound fuel idx product reads
  = product_loop toString d' bound fuel idx product reads.
Proof.
  revert idx product reads.
  induction fuel as [|fuel IH]; intros [i|] product reads Hi; cbn [product_loop];
    try done.
  destruct (i <? bound); [|done].
  rewrite outside_product_step by done.
  pose proof (product_step_progress toString d' i product) as Hp.
  destruct (product_step toString d' i product) as [[idx' product'] r]. cbn in Hp.
  apply IH. destruct idx'; [lia|done].
Qed.

Lemma outside_components_loop js_pow (exponent : Z) (fuel : nat) (offset : Z)
    (acc : list PriceComponent) (continue : bool) :
  Z.of_nat b ≤ offset →
  components_loop js_pow d exponent fuel offset acc continue
  = components_loop js_pow d' exponent fuel offset acc continue.
Proof.
  revert offset acc continue.
  induction fuel as [|fuel IH]; intros offset acc continue Ho;
    cbn [components_loop]; rewrite outside_len; [done|].
  destruct ((offset <? len d') && continue); [|done].
  rewrite !(outside_slice_after _) by lia.
  destruct (PKorNull (slice d' offset (offset + 32))); [|apply IH; lia].
  destruct (parsePriceInfo js_pow (slice d' (offset + 32) (offset + 32 + 32)) exponent);
    run; try done.
  destruct (parsePriceInfo js_pow (slice d' (offset + 32 + 32) (offset + 32 + 32 + 32))
              exponent); run; try done.
  apply IH. lia.
Qed.

Lemma outside_mapping_keys (n : Z) :
  (b ≤ 56)%nat →
  (λ k, mkPublicKey (slice d (56 + 32 * k) (56 + 32 * k + 32))) <$> seqZ 0 n
  = (λ k, mkPublicKey (slice d' (56 + 32 * k) (56 + 32 * k + 32))) <$> seqZ 0 n.
Proof.
  intros Hb. apply list_fmap_ext. intros i k [-> _]%lookup_seqZ.
  cbn. by rewrite outside_slice_after by lia.
Qed.

End Same_outside.

(** X11. The declared component count and the unused word after it
    (bytes 24-31 of a price account) are read for the record's count field
    and for nothing else: two buffers that differ only there decode to the
    same exception or to records that differ only in that field. *)
Theorem X11_declared_count_unused js_pow (d d' : Buffer) :
  same_outside 24 32 d d' →
  result_map forget_count (parsePriceData js_pow d)
  = result_map forget_count (parsePriceData js_pow d').
Proof.
  intros Hout. pose proof (outside_len 24 32 d d' Hout) as Hl.
  destruct (Z.lt_ge_cases (len d) 176).
  { by rewrite !parsePriceData_outside by lia. }
  rewrite !parsePriceData_inside by lia.
  rewrite <- (outside_slice_before 24 32 d d' Hout 20 24) by lia.
  rewrite <- (outside_components_loop 24 32 d d' Hout) by lia.
  destruct Hout as [Hlen Hrest]. rewrite <- Hlen.
  destruct (components_loop _ _ _ _ _ _ _) as [l| |]; run; try done.
  f_equal. unfold forget_count, price_fixed. cbn.
  pose proof (conj Hlen Hrest : same_outside 24 32 d d') as Hout.
  rewrite !(outside_slice_before 24 32 d d' Hout _ 4),
    !(outside_slice_before 24 32 d d' Hout _ 8),
    !(outside_slice_before 24 32 d d' Hout _ 12),
    !(outside_slice_before 24 32 d d' Hout _ 16),
    !(outside_slice_before 24 32 d d' Hout _ 20),
    !(outside_slice_before 24 32 d d' Hout _ 24) by lia.
  by rewrite !(outside_slice_after 24 32 d d' Hout) by lia.
Qed.

Lemma X11_declared_count_unused_witness :
  result_map forget_count (parsePriceData naive_pow blank_price)
  = result_map forget_count
      (parsePriceData naive_pow (replicate 24 x00 ++ replicate 8 xff ++ replicate 176 x00)).
Proof.
  apply (X11_declared_count_unused naive_pow blank_price
           (replicate 24 x00 ++ replicate 8 xff ++ replicate 176 x00)).
  repeat split; reflexivity.
Defined.

(** X12. The unused word of a mapping account (bytes 20-23) is never
    read: two buffers that differ only there decode to the same result. *)
Theorem X12_mapping_unused_word (d d' : Buffer) :
  same_outside 20 24 d d' → parseMappingData d = parseMappingData d'.
Proof.
  intros Hout. pose proof (outside_len 20 24 d d' Hout) as Hl.
  destruct (Z.lt_ge_cases (len d) 20).
  { by rewrite !parseMappingData_outside by lia. }
  rewrite !parseMappingData_inside by lia.
  rewrite (outside_mapping_keys 20 24 d d' Hout) by lia.
  rewrite !(outside_slice_before 20 24 d d' Hout _ 4),
    !(outside_slice_before 20 24 d d' Hout _ 8),
    !(outside_slice_before 20 24 d d' Hout _ 12),
    !(outside_slice_before 20 24 d d' Hout _ 16),
    !(outside_slice_before 20 24 d d' Hout _ 20) by lia.
  by rewrite !(outside_slice_after 20 24 d d' Hout) by lia.
Qed.

Lemma X12_mapping_unused_word_witness :
  parseMappingData sample_mapping
  = parseMappingData (take 20 sample_mapping ++ replicate 4 xff ++ drop 24 sample_mapping).
Proof.
  apply (X12_mapping_unused_word sample_mapping
           (take 20 sample_mapping ++ replicate 4 xff ++ drop 24 sample_mapping)).
  repeat split; reflexivity.
Defined.

(** X13. No decoder looks at the account type: it is read into the
    record's type field and decides nothing. Two buffers that differ only
    in bytes 8-11 decode, under each of the three decoders, to the same
    exception or to records that differ only in the type field; so each
    decoder accepts an account of another type. *)
Theorem X13_account_type_unchecked js_pow toString (d d' : Buffer) :
  same_outside 8 12 d d' →
  (result_map (mapping_retype 0) (parseMappingData d)
   = result_map (mapping_retype 0) (parseMappingData d'))
  ∧ (result_map (product_retype 0) (parseProductData toString d)
     = result_map (product_retype 0) (parseProductData toString d'))
  ∧ (result_map (price_retype 0) (parsePriceData js_pow d)
     = result_map (price_retype 0) (parsePriceData js_pow d')).
Proof.
  intros Hout. pose proof (outside_len 8 12 d d' Hout) as Hl.
  assert (∀ s e, 0 ≤ s → e ≤ 8 → slice d s e = slice d' s e) as Hbefore
    by (intros; by apply (outside_slice_before 8 12 d d' Hout)).
  assert (∀ s e, 12 ≤ s → slice d s e = slice d' s e) as Hafter
    by (intros; by apply (outside_slice_after 8 12 d d' Hout)).
  split; [|split].
  - destruct (Z.lt_ge_cases (len d) 20).
    { by rewrite !parseMappingData_outside by lia. }
    rewrite !parseMappingData_inside by lia. run. f_equal.
    unfold mapping_retype, retype. cbn.
    rewrite (outside_mapping_keys 8 12 d d' Hout) by lia.
    rewrite (Hbefore 0 4), (Hbefore 4 8) by lia.
    by rewrite !(Hafter _) by lia.
  - destruct (Z.lt_ge_cases (len d) 16) as [|Hd].
    { by rewrite !parseProductData_outside by lia. }
    destruct (parseProductData_inside toString d Hd) as (st & Hst & ->).
    destruct (parseProductData_inside toString d' ltac:(lia)) as (st' & Hst' & ->).
    unfold product_metadata in Hst, Hst'.
    rewrite (outside_product_loop 8 12 d d' Hout) in Hst by (cbn; lia).
    rewrite (Hafter 12 16) in Hst by lia.
    rewrite Hst in Hst'. injection Hst' as <-. run. f_equal.
    unfold product_retype, retype. cbn.
    rewrite (Hbefore 0 4), (Hbefore 4 8) by lia.
    by rewrite !(Hafter _) by lia.
  - destruct (Z.lt_ge_cases (len d) 176).
    { by rewrite !parsePriceData_outside by lia. }
    rewrite !parsePriceData_inside by lia.
    rewrite <- (Hafter 20 24) by lia.
    rewrite <- (outside_components_loop 8 12 d d' Hout) by lia.
    destruct Hout as [Hlen _]. rewrite <- Hlen.
    destruct (components_loop _ _ _ _ _ _ _) as [l| |]; run; try done.
    f_equal. unfold price_retype, retype, price_fixed. cbn.
    rewrite (Hbefore 0 4), (Hbefore 4 8) by lia.
    by rewrite !(Hafter _) by lia.
Qed.

Lemma X13_account_type_unchecked_witness :
  result_map (product_retype 0) (parseProductData ascii_toString sentinel_price)
  = result_map (product_retype 0)
      (parseProductData ascii_toString
         (take 8 sentinel_price ++ [x02; x00; x00; x00] ++ drop 12 sentinel_price)).
Proof.
  apply (X13_account_type_unchecked naive_pow ascii_toString sentinel_price
           (take 8 sentinel_price ++ [x02; x00; x00; x00] ++ drop 12 sentinel_price)).
  repeat split; reflexivity.
Defined.

(** X14. A mapping account is decoded from its first 56 + 32 n bytes,
    n being the number of keys: a buffer that holds the same bytes up to
    there decodes to the same record, whatever follows. *)
Theorem X14_mapping_trailing_bytes (d d' : Buffer) (r : MappingData) :
  parseMappingData d = Ok r →
  56 + 32 * Z.of_nat (length (productAccountKeys r)) ≤ len d →
  take (Z.to_nat (56 + 32 * Z.of_nat (length (productAccountKeys r)))) d
  = take (Z.to_nat (56 + 32 * Z.of_nat (length (productAccountKeys r)))) d' →
  parseMappingData d' = Ok r.
Proof.
  destruct (Z.lt_ge_cases (len d) 20); [by rewrite parseMappingData_outside|].
  rewrite parseMappingData_inside by done. intros [= <-]. cbn [productAccountKeys].
  pose proof (le_value_slice_range d 16 4 ltac:(lia) ltac:(lia)) as Hn.
  change (16 + 4) with 20 in Hn.
  rewrite length_fmap, length_seqZ, Z2Nat.id by lia.
  set (n := 56 + 32 * le_value (slice d 16 20)). intros Hlen Hprefix.
  pose proof (prefix_len d d' n Hprefix Hlen) as Hlen'.
  assert (∀ s e, 0 ≤ s → e ≤ n → slice d s e = slice d' s e) as Hs
    by (intros; by apply (prefix_slice d d' n)).
  rewrite parseMappingData_inside by lia.
  rewrite <- !(Hs _ _) by lia. do 2 f_equal.
  apply list_fmap_ext. intros i k [-> Hi]%lookup_seqZ. cbn.
  by rewrite Hs by lia.
Qed.

Lemma X14_mapping_trailing_bytes_witness :
  ∃ r, parseMappingData sample_mapping = Ok r
    ∧ parseMappingData (sample_mapping ++ replicate 40 xff) = Ok r.
Proof.
  eexists. split; [reflexivity|].
  apply (X14_mapping_trailing_bytes sample_mapping (sample_mapping ++ replicate 40 xff) _
           eq_refl); [by vm_compute|reflexivity].
Defined.

(** X15. Without a sentinel every triple is decoded: when the component
    region is a whole number of 96-byte triples and no publisher span in
    it is 32 zero bytes, the decoder returns a record with exactly
    (length - 176) / 96 components. *)
Theorem X15_no_sentinel_all_decoded js_pow (data : Buffer) :
  176 ≤ len data →
  (len data - 176) mod 96 = 0 →
  (∀ i : nat, 176 + 96 * Z.of_nat i + 96 ≤ len data →
     slice data (176 + 96 * Z.of_nat i) (176 + 96 * Z.of_nat i + 32) ≠ alloc 32) →
  ∃ r, parsePriceData js_pow data = Ok r
    ∧ Z.of_nat (length (priceComponents r)) = (len data - 176) / 96.
Proof.
  intros Hlen Hmod Hpub. rewrite parsePriceData_inside by done.
  destruct (components_loop_whole js_pow data
              (to_int32 (le_value (slice data 20 24))) (length data) 176 [] true)
    as [l Hl]; [lia|done|unfold len; lia|].
  rewrite Hl. run. eexists. split; [done|]. cbn [priceComponents price_fixed].
  apply components_loop_spec in Hl as (rest & -> & Hcomp & Hend); [|lia].
  rewrite app_nil_l.
  apply Z.mod_divide in Hmod as [q Hq]; [|lia].
  replace (len data - 176) with (q * 96) by lia. rewrite Z.div_mul by lia.
  assert (Z.of_nat (length rest) ≤ q) as Hle.
  { destruct (nil_or_length_pos rest) as [->|Hpos]; [cbn; lia|].
    destruct (lookup_lt_is_Some_2 rest (length rest - 1)) as [c Hc]; [lia|].
    apply Hcomp in Hc as (Hroom & _). lia. }
  destruct Hend as [Hend|Hend]; [lia|].
  destruct (Z.lt_ge_cases (Z.of_nat (length rest)) q) as [Hlt|Hge]; [|lia].
  exfalso. apply (Hpub (length rest)); [lia|done].
Qed.

Lemma X15_no_sentinel_all_decoded_witness :
  ∃ r, parsePriceData naive_pow (take 176 sentinel_price ++ replicate 192 x01) = Ok r
    ∧ Z.of_nat (length (priceComponents r)) = 2.
Proof.
  apply (X15_no_sentinel_all_decoded naive_pow
           (take 176 sentinel_price ++ replicate 192 x01)).
  - by vm_compute.
  - reflexivity.
  - intros i Hi. change (len (take 176 sentinel_price ++ replicate 192 x01)) with 368 in Hi.
    assert (i = 0 ∨ i = 1)%nat as [-> | ->] by lia; by vm_compute.
Defined.
